(** * OpenMDAO: the Case value object and the CaseIteratorDriver dispatcher

    A shallow embedding of
    - [openmdao/main/case.py]: [flatten_obj] and the [Case] class;
    - [openmdao/lib/drivers/caseiterdriver.py]: [_server_ready],
      [_run_case] and the sequential [_start] of [CaseIteratorDriver].

    Python objects are modelled by the inductive [value]; a Python [dict]
    is an association list kept in iteration order; methods that mutate
    [self] or the driver thread the object through explicitly, and methods
    that can raise return an outcome that still carries the mutated
    object. *)

From stdpp Require Import base option list strings pretty gmap.

(** ** Python values *)

Module Py.

(** Classes.  [list], [tuple] and [array] are the classes the flattener
    iterates over; every other class (built in or user defined) is an
    [aclass].  [a_named] covers [long], [bool], [object], [NoneType],
    [dict], user classes, ... *)
Inductive aclass :=
| a_int | a_float | a_str | a_unicode
| a_named (n : string).

Inductive seqclass := q_list | q_tuple | q_array.

Inductive pyclass :=
| K (a : aclass)
| Q (q : seqclass).

#[global] Instance aclass_eq_dec : EqDecision aclass.
Proof. solve_decision. Defined.
#[global] Instance seqclass_eq_dec : EqDecision seqclass.
Proof. solve_decision. Defined.
#[global] Instance pyclass_eq_dec : EqDecision pyclass.
Proof. solve_decision. Defined.

Definition c_object : pyclass := K (a_named "object").

(** What an object that is not a sequence holds. *)
Inductive payload :=
| PInt (n : Z)
| PText (s : string)
| POpaque (id : nat).

#[global] Instance payload_eq_dec : EqDecision payload.
Proof. solve_decision. Defined.

(** Values.  [VNone] is the [None] singleton, [VMissing] the module level
    [_Missing = object()] singleton.  [VObj ty bases p] is an instance of
    class [ty] whose remaining method resolution order is [bases].
    [VSeq sub root xs] is an instance of [root] (or of the first class of
    [sub], user classes derived from [root], most derived first) holding
    the items [xs]. *)
#[local] Unset Elimination Schemes.
Inductive value :=
| VNone
| VMissing
| VObj (ty : aclass) (bases : list aclass) (p : payload)
| VSeq (sub : list string) (root : seqclass) (xs : list value).
#[local] Set Elimination Schemes.

(** Induction over values, with the hypothesis for every item of a
    sequence. *)
Fixpoint value_induction (P : value → Prop)
    (HNone : P VNone) (HMissing : P VMissing)
    (HObj : ∀ ty bases p, P (VObj ty bases p))
    (HSeq : ∀ sub root xs, Forall P xs → P (VSeq sub root xs))
    (v : value) : P v :=
  match v with
  | VNone => HNone
  | VMissing => HMissing
  | VObj ty bases p => HObj ty bases p
  | VSeq sub root xs =>
      HSeq sub root xs
        ((fix items (l : list value) : Forall P l :=
            match l with
            | [] => @ListDef.Forall_nil _ P
            | x :: l' =>
                @ListDef.Forall_cons _ P x l' (value_induction P HNone HMissing HObj HSeq x) (items l')
            end) xs)
  end.

(** [getmro(type(obj))] *)
Definition getmro_type (obj : value) : list pyclass :=
  match obj with
  | VNone => [K (a_named "NoneType"); c_object]
  | VMissing => [c_object]
  | VObj ty bases _ => K ty :: map K bases
  | VSeq sub root _ => map (λ n, K (a_named n)) sub ++ [Q root; c_object]
  end.

(** [isinstance(obj, classes)] *)
Definition isinstance (obj : value) (classes : list pyclass) : bool :=
  existsb (λ k, bool_decide (k ∈ classes)) (getmro_type obj).

(** Structural equality.  It is Python's [==] on [int] and [str] objects
    (two of a class are equal when the number, or the text, is the same,
    and an [int] is not equal to a [str]).  On other values Python's [==]
    is not structural: a [float] can be a NaN, numbers of different
    classes and a [str] and a [unicode] can be equal, a class can have an
    [__eq__] of its own. *)
Fixpoint value_eqb (v w : value) : bool :=
  match v, w with
  | VNone, VNone => true
  | VMissing, VMissing => true
  | VObj t b p, VObj t' b' p' =>
      bool_decide (t = t') && bool_decide (b = b') && bool_decide (p = p')
  | VSeq s r xs, VSeq s' r' ys =>
      bool_decide (s = s') && bool_decide (r = r') &&
      (fix all2 (xs ys : list value) : bool :=
         match xs, ys with
         | [], [] => true
         | x :: xs', y :: ys' => value_eqb x y && all2 xs' ys'
         | _, _ => false
         end) xs ys
  | _, _ => false
  end.

(** Plain builders for the common built-in values. *)
Definition py_int (n : Z) : value := VObj a_int [a_named "object"] (PInt n).
Definition py_str (s : string) : value :=
  VObj a_str [a_named "basestring"; a_named "object"] (PText s).
Definition py_long (n : Z) : value := VObj (a_named "long") [a_named "object"] (PInt n).
Definition py_bool (b : bool) : value :=
  VObj (a_named "bool") [a_int; a_named "object"] (PInt (if b then 1 else 0)).
Definition py_list (xs : list value) : value := VSeq [] q_list xs.
Definition py_tuple (xs : list value) : value := VSeq [] q_tuple xs.

End Py.

Import Py.

(** ** case.py: flattening *)

Abbreviation item := (string * value)%type.

Module Flatten.

Definition _simpleflatten (name : string) (obj : value) : list item :=
  [(name, obj)].

(** [''.join(["[%d]" % j for j in new_idx])] *)
Definition idxstr (new_idx : list nat) : string :=
  foldr (λ j acc, "[" +:+ pretty j +:+ "]" +:+ acc) "" new_idx.

(** The body of the loop of [_recurse_flatten] for one [entry] at index
    path [new_idx]; the returned list is [ret] after the body ran.  An
    entry is an instance of [tuple], [list] or [array] exactly when it is
    a [VSeq] (lemma [isinstance_sequence]). *)
Fixpoint flatten_entry (name : string) (new_idx : list nat) (entry : value)
    (ret : list item) : list item :=
  match entry with
  | VSeq _ _ xs =>
      (fix each (i : nat) (lst : list value) (ret : list item) : list item :=
         match lst with
         | [] => ret
         | e :: rest => each (S i) rest (flatten_entry name (new_idx ++ [i]) e ret)
         end) 0 xs ret
  | _ => ret ++ [(name +:+ idxstr new_idx, entry)]
  end.

(** [for i, entry in enumerate(lst)], from index [i] on *)
Fixpoint enumerate_from (name : string) (idx : list nat) (i : nat)
    (lst : list value) (ret : list item) : list item :=
  match lst with
  | [] => ret
  | e :: rest =>
      enumerate_from name idx (S i) rest (flatten_entry name (idx ++ [i]) e ret)
  end.

Definition _recurse_flatten (ret : list item) (name : string) (idx : list nat)
    (lst : list value) : list item :=
  enumerate_from name idx 0 lst ret.

(** [_flatten_lst] is only registered for sequence classes; on any other
    object [enumerate] has nothing to iterate. *)
Definition _flatten_lst (name : string) (lst : value) : list item :=
  match lst with
  | VSeq _ _ xs => _recurse_flatten [] name [] xs
  | _ => []
  end.

Inductive flattener := h_simpleflatten | h_flatten_lst.

Definition call (f : flattener) (name : string) (obj : value) : list item :=
  match f with
  | h_simpleflatten => _simpleflatten name obj
  | h_flatten_lst => _flatten_lst name obj
  end.

Definition flatteners : list (pyclass * flattener) :=
  [ (K a_int, h_simpleflatten);
    (K a_float, h_simpleflatten);
    (K a_str, h_simpleflatten);
    (K a_unicode, h_simpleflatten);
    (Q q_list, h_flatten_lst);
    (Q q_tuple, h_flatten_lst);
    (Q q_array, h_flatten_lst) ].

Fixpoint flatteners_get (tbl : list (pyclass * flattener)) (k : pyclass)
    : option flattener :=
  match tbl with
  | [] => None
  | (k', f) :: tbl' => if decide (k = k') then Some f else flatteners_get tbl' k
  end.

(** [for klass in ...: if klass in flatteners: return flatteners[klass](name, obj)] *)
Fixpoint walk_mro (mro : list pyclass) (name : string) (obj : value) : list item :=
  match mro with
  | [] => []
  | klass :: mro' =>
      match flatteners_get flatteners klass with
      | Some f => call f name obj
      | None => walk_mro mro' name obj
      end
  end.

Definition flatten_obj (name : string) (obj : value) : list item :=
  match flatteners_get flatteners (hd c_object (getmro_type obj)) with
  | Some f => call f name obj
  | None => walk_mro (tail (getmro_type obj)) name obj
  end.

(** The specification side: the leaves of a nested sequence with their
    index paths, left to right. *)
Fixpoint leaves (v : value) : list (list nat * value) :=
  match v with
  | VSeq _ _ xs =>
      (fix children (i : nat) (lst : list value) : list (list nat * value) :=
         match lst with
         | [] => []
         | e :: rest => map (λ pv, (i :: pv.1, pv.2)) (leaves e) ++ children (S i) rest
         end) 0 xs
  | _ => [([], v)]
  end.

Fixpoint children_leaves (i : nat) (lst : list value) : list (list nat * value) :=
  match lst with
  | [] => []
  | e :: rest => map (λ pv, (i :: pv.1, pv.2)) (leaves e) ++ children_leaves (S i) rest
  end.

(** A leaf found below index path [idx], as [_recurse_flatten] writes it. *)
Definition render (name : string) (idx : list nat) (pv : list nat * value) : item :=
  (name +:+ idxstr (idx ++ pv.1), pv.2).

Definition scalar_or_string (obj : value) : Prop :=
  match obj with
  | VObj ty bases _ =>
      Exists (λ a, a ∈ [a_int; a_float; a_str; a_unicode]) (ty :: bases)
  | _ => False
  end.

Definition no_handler (obj : value) : Prop :=
  Forall (λ k, flatteners_get flatteners k = None) (getmro_type obj).

End Flatten.

(** ** case.py: the Case class *)

(** Exceptions, with the text [str(exc)] gives. *)
Inductive exn :=
| KeyError (text : string)
| NameError (text : string)
| AttributeError (text : string)
| TypeError (text : string)
| ServerError (text : string)
| TracedError (orig : string)
| Exception (text : string).

#[global] Instance exn_eq_dec : EqDecision exn.
Proof. solve_decision. Defined.

Inductive result (A : Type) :=
| Ok (a : A)
| Raise (e : exn).
Arguments Ok {A} a.
Arguments Raise {A} e.

(** A Python [dict] with string keys, as the list [d.items()] returns.
    Assignment to a key that is present keeps its place, as in Python.
    A new key is listed last here; a Python 2 [dict] lists it where its
    hash table puts it, so what is stated about a dict that was built
    anew is stated by lookup or up to the order of its entries. *)
Module Dict.
Section dict.
Context {V : Type}.

Fixpoint get (d : list (string * V)) (k : string) : option V :=
  match d with
  | [] => None
  | (k', v) :: d' => if decide (k = k') then Some v else get d' k
  end.

Fixpoint set (d : list (string * V)) (k : string) (v : V) : list (string * V) :=
  match d with
  | [] => [(k, v)]
  | (k', v') :: d' =>
      if decide (k = k') then (k, v) :: d' else (k', v') :: set d' k v
  end.

Definition keys (d : list (string * V)) : list string := d.*1.

End dict.
End Dict.

Module CaseObj.

(** An output given to [add_outputs]: a name, or a [(name, value)] tuple. *)
Inductive out_entry :=
| OName (name : string)
| OPair (name : string) (val : value).

(** [ExprEvaluator(s)], identified by its text. *)
Inductive ExprEvaluator := mkExpr (text : string).

(** The scope a case is applied to: [scope.get(name)] and
    [expr.evaluate(scope)] give a value or raise; a raised exception is
    represented by its text. *)
Record scope := {
  scope_get : string → value + string;
  scope_evaluate : ExprEvaluator → value + string
}.

Record Case := mkCase {
  _exprs : option (list (string * ExprEvaluator));
  _outputs : option (list item);
  _inputs : list item;
  max_retries : option Z;
  retries : option Z;
  msg : option string;
  exc : option exn;
  label : string;
  uuid : string;
  parent_uuid : string;
  timestamp : Z
}.

Definition set_exprs x (c : Case) : Case :=
  mkCase x (_outputs c) (_inputs c) (max_retries c) (retries c) (msg c) (exc c)
         (label c) (uuid c) (parent_uuid c) (timestamp c).
Definition set_outputs x (c : Case) : Case :=
  mkCase (_exprs c) x (_inputs c) (max_retries c) (retries c) (msg c) (exc c)
         (label c) (uuid c) (parent_uuid c) (timestamp c).
Definition set_inputs x (c : Case) : Case :=
  mkCase (_exprs c) (_outputs c) x (max_retries c) (retries c) (msg c) (exc c)
         (label c) (uuid c) (parent_uuid c) (timestamp c).
Definition set_retries x (c : Case) : Case :=
  mkCase (_exprs c) (_outputs c) (_inputs c) (max_retries c) x (msg c) (exc c)
         (label c) (uuid c) (parent_uuid c) (timestamp c).
Definition set_msg x (c : Case) : Case :=
  mkCase (_exprs c) (_outputs c) (_inputs c) (max_retries c) (retries c) x (exc c)
         (label c) (uuid c) (parent_uuid c) (timestamp c).
Definition set_uuid x (c : Case) : Case :=
  mkCase (_exprs c) (_outputs c) (_inputs c) (max_retries c) (retries c) (msg c) (exc c)
         (label c) x (parent_uuid c) (timestamp c).
Definition set_parent_uuid x (c : Case) : Case :=
  mkCase (_exprs c) (_outputs c) (_inputs c) (max_retries c) (retries c) (msg c) (exc c)
         (label c) (uuid c) x (timestamp c).
Definition set_timestamp x (c : Case) : Case :=
  mkCase (_exprs c) (_outputs c) (_inputs c) (max_retries c) (retries c) (msg c) (exc c)
         (label c) (uuid c) (parent_uuid c) x.

(** Truth value of a dict-or-None attribute: [if self._outputs:]. *)
Definition truthy {A} (d : option (list A)) : bool :=
  match d with
  | Some (_ :: _) => true
  | _ => false
  end.

Section methods.

(** [openmdao.main.variable.is_legal_name] *)
Variable is_legal_name : string → bool.

Definition _register_expr (s : string) (self : Case) : Case :=
  if negb (is_legal_name s) then
    let expr := mkExpr s in
    let exprs := match _exprs self with None => [] | Some d => d end in
    set_exprs (Some (Dict.set exprs s expr)) self
  else self.

Definition add_input (name : string) (val : value) (self : Case) : Case :=
  let self := _register_expr name self in
  set_inputs (Dict.set (_inputs self) name val) self.

Definition add_inputs (inp_iter : list item) (self : Case) : Case :=
  foldl (λ self nv, add_input nv.1 nv.2 self) self inp_iter.

Definition add_output (name : string) (val : value) (self : Case) : Case :=
  let self := _register_expr name self in
  match _outputs self with
  | None => set_outputs (Some [(name, val)]) self
  | Some d => set_outputs (Some (Dict.set d name val)) self
  end.

Definition add_outputs (outputs : list out_entry) (self : Case) : Case :=
  foldl (λ self entry,
           match entry with
           | OName name => add_output name VMissing self
           | OPair name val => add_output name val self
           end) self outputs.

(** [Case(inputs, outputs, max_retries, retries, label, case_uuid,
    parent_uuid, msg)]; [uuid1] and [now] are what [uuid1()] and
    [time.time()] return during the call. *)
Definition __init__ (uuid1 : string) (now : Z)
    (inputs : option (list item)) (outputs : option (list out_entry))
    (max_retries retries : option Z) (label : string)
    (case_uuid : option string) (parent_uuid : string) (msg : option string)
    : Case :=
  let self :=
    {| _exprs := None; _outputs := None; _inputs := [];
       max_retries := max_retries; retries := retries; msg := msg;
       exc := None; label := label;
       uuid := match case_uuid with
               | Some u => if decide (u = "") then uuid1 else u
               | None => uuid1
               end;
       parent_uuid := parent_uuid;
       timestamp := now |} in
  let self := if truthy inputs then add_inputs (default [] inputs) self else self in
  if truthy outputs then add_outputs (default [] outputs) self else self.

Definition __len__ (self : Case) : nat :=
  match _outputs self with
  | None => length (_inputs self)
  | Some outs => length (_inputs self) + length outs
  end.

Definition flatten_items (d : list item) : list item :=
  foldl (λ ret kv, ret ++ Flatten.flatten_obj kv.1 kv.2) [] d.

Definition get_inputs (flatten : bool) (self : Case) : list item :=
  if flatten then flatten_items (_inputs self) else _inputs self.

Definition get_outputs (flatten : bool) (self : Case) : result (list item) :=
  match _outputs self with
  | None => Raise (AttributeError "'NoneType' object has no attribute 'items'")
  | Some outs => Ok (if flatten then flatten_items outs else outs)
  end.

Definition items (iotype : option string) (flatten : bool) (self : Case)
    : result (list item) :=
  match iotype with
  | None =>
      if truthy (_outputs self) then
        match get_outputs flatten self with
        | Ok outs => Ok (get_inputs flatten self ++ outs)
        | Raise e => Raise e
        end
      else Ok (get_inputs flatten self)
  | Some io =>
      if decide (io = "in") then Ok (get_inputs flatten self)
      else if decide (io = "out") then
        if truthy (_outputs self) then get_outputs flatten self else Ok []
      else Raise (NameError ("invalid iotype arg (" +:+ io +:+
                               "). Must be 'in','out',or None"))
  end.

Definition keys (iotype : option string) (flatten : bool) (self : Case)
    : result (list string) :=
  match items iotype flatten self with
  | Ok kvs => Ok (kvs.*1)
  | Raise e => Raise e
  end.

(** The loop of [__eq__] over [zip(...)]: [false] stands for the early
    [return False]. *)
Fixpoint eq_loop (pairs : list (item * item)) : bool :=
  match pairs with
  | [] => true
  | (selftup, othertup) :: rest =>
      if negb (bool_decide (selftup.1 = othertup.1))
         || negb (value_eqb selftup.2 othertup.2)
      then false
      else eq_loop rest
  end.

(** [self is other] is not modelled: two references to one object see
    the same fields, and for those the remaining tests return [True] as
    well (lemma [eq_same]). *)
Definition __eq__ (self other : Case) : bool :=
  if negb (bool_decide (msg self = msg other))
     || negb (bool_decide (label self = label other)) then false
  else if negb (bool_decide (__len__ self = __len__ other)) then false
  else
    match items None true self, items None true other with
    | Ok xs, Ok ys => eq_loop (zip xs ys)
    | _, _ => false
    end.

Definition is_None (v : value) : bool :=
  match v with VNone => true | _ => false end.

(** The loop of [subcase].  [self._inputs.get(name)] is the value, or
    [None] when the name is absent; [self._outputs[name]] raises
    [KeyError(name)] when the name is absent. *)
Fixpoint subcase_loop (self : Case) (names : list string)
    (ins outs : list item) : result (list item * list item) :=
  match names with
  | [] => Ok (ins, outs)
  | name :: names' =>
      let val := default VNone (Dict.get (_inputs self) name) in
      if negb (is_None val) then
        subcase_loop self names' (ins ++ [(name, val)]) outs
      else if truthy (_outputs self) then
        match Dict.get (default [] (_outputs self)) name with
        | Some o => subcase_loop self names' ins (outs ++ [(name, o)])
        | None => Raise (KeyError name)
        end
      else Raise (KeyError ("'" +:+ name +:+ "' is not part of this Case"))
  end.

Definition subcase (uuid1 : string) (now : Z) (names : list string)
    (self : Case) : result Case :=
  match subcase_loop self names [] [] with
  | Raise e => Raise e
  | Ok (ins, outs) =>
      let sc := __init__ uuid1 now (Some ins) (Some (map (λ nv, OPair nv.1 nv.2) outs))
                  (max_retries self) None "" None (parent_uuid self) None in
      Ok (set_timestamp (timestamp self) sc)
  end.

(** [reset]: the object as it is left, and the exception if one was
    raised.  [uuid1] is what [uuid1()] returns during the call. *)
Definition reset (uuid1 : string) (self : Case) : Case * option exn :=
  let self := set_parent_uuid "" self in
  let self := set_uuid uuid1 self in
  let self := set_retries None self in
  match _outputs self with
  | None =>
      (self, Some (AttributeError "'NoneType' object has no attribute 'keys'"))
  | Some outs =>
      (foldl (λ self key,
                set_outputs (Some (Dict.set (default [] (_outputs self)) key VMissing)) self)
             self (Dict.keys outs),
       None)
  end.

(** One round of the loops of [update_outputs]: [attempt] is what the
    [try] block computed for [name].  An evaluator found in [_exprs] counts
    as true in [if expr:]. *)
Definition update_one (attempt : value + string) (name : string)
    (st : Case * option exn) : Case * option exn :=
  let '(self, last_excpt) := st in
  let outs := default [] (_outputs self) in
  match attempt with
  | inl v => (set_outputs (Some (Dict.set outs name v)) self, last_excpt)
  | inr err =>
      let self := set_outputs (Some (Dict.set outs name VMissing)) self in
      let self :=
        match msg self with
        | None => set_msg (Some err) self
        | Some m => set_msg (Some (m +:+ " " +:+ err)) self
        end in
      (self, Some (TracedError err))
  end.

Definition update_outputs (now : Z) (sc : scope) (msg : option string)
    (self : Case) : Case * option exn :=
  let self := set_msg msg self in
  let last_excpt := None in
  let '(self, last_excpt) :=
    match _outputs self with
    | Some outs =>
        if truthy (_exprs self) then
          foldl (λ st name,
                   let expr := Dict.get (default [] (_exprs self)) name in
                   update_one
                     (match expr with
                      | Some expr => scope_evaluate sc expr
                      | None => scope_get sc name
                      end) name st)
                (self, last_excpt) (Dict.keys outs)
        else
          foldl (λ st name, update_one (scope_get sc name) name st)
                (self, last_excpt) (Dict.keys outs)
    | None => (self, last_excpt)
    end in
  let self := set_timestamp now self in
  (self, last_excpt).

End methods.

(** *** What [update_outputs] is expected to leave behind *)

(** Evaluating one output on the scope: through its evaluator when one is
    registered for the name, else by [scope.get]. *)
Definition evaluate_output (sc : scope) (self : Case) (name : string)
    : value + string :=
  match Dict.get (default [] (_exprs self)) name with
  | Some expr => scope_evaluate sc expr
  | None => scope_get sc name
  end.

(** The value left in a slot, and the error texts of the failed
    outputs in the order of the outputs, for a given way [att] of
    evaluating an output. *)
Definition slot_of (att : string → value + string) (name : string) : value :=
  match att name with
  | inl v => v
  | inr _ => VMissing
  end.

Definition errors_of (att : string → value + string) (names : list string)
    : list string :=
  omap (λ name, match att name with
                | inl _ => None
                | inr err => Some err
                end) names.

Definition slot_after (sc : scope) (self : Case) : string → value :=
  slot_of (evaluate_output sc self).

Definition failures (sc : scope) (self : Case) : list string → list string :=
  errors_of (evaluate_output sc self).

(** [msg] after one more error text: the text itself, or the old
    message, a space and the text. *)
Definition append_error (msg : option string) (err : string) : option string :=
  match msg with
  | None => Some err
  | Some m => Some (m +:+ " " +:+ err)
  end.

(** [msg] with the error texts appended, separated by single spaces. *)
Definition msg_after (msg : option string) (errs : list string) : option string :=
  match from_option (λ m, [m]) [] msg ++ errs with
  | [] => None
  | parts => Some (String.concat " " parts)
  end.

(** *** Example cases *)

Definition legal_all : string → bool := λ _, true.

(** [Case(inputs=[('x', [1, 2])])] and [Case(inputs=[('x', [1])])] *)
Definition case_x12 : Case :=
  __init__ legal_all "uuid-a" 0 (Some [("x", py_list [py_int 1; py_int 2])]) None
           None None "" None "" None.
Definition case_x1 : Case :=
  __init__ legal_all "uuid-b" 0 (Some [("x", py_list [py_int 1])]) None
           None None "" None "" None.

(** [Case(inputs=[('x', None)])] *)
Definition case_x_none : Case :=
  __init__ legal_all "uuid-c" 0 (Some [("x", VNone)]) None None None "" None "" None.

(** [Case(inputs=[('x', 1)], outputs=['x'])] *)
Definition case_x_in_out : Case :=
  __init__ legal_all "uuid-d" 0 (Some [("x", py_int 1)]) (Some [OName "x"])
           None None "" None "" None.

(** [Case(inputs=[('x', 1), ('y', 2)], outputs=['z', ('w', 5)])] *)
Definition case_xy_zw : Case :=
  __init__ legal_all "uuid-e" 0 (Some [("x", py_int 1); ("y", py_int 2)])
           (Some [OName "z"; OPair "w" (py_int 5)])
           (Some 3%Z) None "lbl" None "parent" (Some "old").

(** A scope on which [z] evaluates to 7 and everything else fails. *)
Definition scope_z : scope :=
  {| scope_get := λ name, if decide (name = "z") then inl (py_int 7)
                          else inr ("no " +:+ name);
     scope_evaluate := λ _, inr "bad expression" |}.

End CaseObj.

(** ** caseiterdriver.py: the dispatcher

    The calls to [self.debug], [self.error] and [self.exception] only
    write to the log and are left out.  The driver reads a case through
    its attributes [inputs], [outputs], [max_retries], [retries] and
    [msg]; cases are distinct objects and are held by value. *)

Module Driver.

(** Worker names: [None] is the local worker of sequential mode. *)
Abbreviation server := (option string).

Definition _EMPTY : string := "empty".
Definition _READY : string := "ready".
Definition _COMPLETE : string := "complete".
Definition _ERROR : string := "error".

(** The attributes of a case the driver reads and writes: [inputs] and
    [outputs] are lists of [(name, index, value)]. *)
Module case.
Record t := mk {
  inputs : list (string * value * value);
  outputs : list (string * value * value);
  max_retries : option Z;
  retries : option Z;
  msg : option string
}.
Definition set_outputs x (c : t) : t := mk (inputs c) x (max_retries c) (retries c) (msg c).
Definition set_max_retries x (c : t) : t := mk (inputs c) (outputs c) x (retries c) (msg c).
Definition set_retries x (c : t) : t := mk (inputs c) (outputs c) (max_retries c) x (msg c).
Definition set_msg x (c : t) : t := mk (inputs c) (outputs c) (max_retries c) (retries c) x.
End case.

(** What the dispatcher puts on a worker's request queue. *)
Inductive request :=
| _remote_load_model (name : server)
| _remote_model_execute (name : server).

Section driver.

(** The models the workers hold are outside the driver: [world] is
    their state, and the operations below are what [set], [get] and
    [run] do on the model of a worker.  A raised exception is
    represented by its text. *)
Context {world : Type}.
Variable model_set : server → string → value → value → world → world * option string.
Variable model_get : server → string → value → world → world * (value + string).
Variable model_run : world → world * option string.
(** [self.get_pathname()], and the text of the exception that
    [self.raise_exception(msg, ServerError)] raises. *)
Variable get_pathname : string.
Variable raise_exception_text : string → string.

Record driver := mkDriver {
  max_retries : Z;
  reload_model : bool;
  _stop : bool;
  _iter : list case.t;
  _todo : list case.t;
  _rerun : list case.t;
  _server_states : gmap server string;
  _server_cases : gmap server (option case.t);
  _exceptions : gmap server (option string);
  _queues : gmap server (list request);
  recorder : list case.t;
  models : world
}.

Definition set_iter x (d : driver) : driver :=
  mkDriver (max_retries d) (reload_model d) (_stop d) x (_todo d) (_rerun d)
    (_server_states d) (_server_cases d) (_exceptions d) (_queues d) (recorder d) (models d).
Definition set_todo x (d : driver) : driver :=
  mkDriver (max_retries d) (reload_model d) (_stop d) (_iter d) x (_rerun d)
    (_server_states d) (_server_cases d) (_exceptions d) (_queues d) (recorder d) (models d).
Definition set_rerun x (d : driver) : driver :=
  mkDriver (max_retries d) (reload_model d) (_stop d) (_iter d) (_todo d) x
    (_server_states d) (_server_cases d) (_exceptions d) (_queues d) (recorder d) (models d).
Definition set_server_states x (d : driver) : driver :=
  mkDriver (max_retries d) (reload_model d) (_stop d) (_iter d) (_todo d) (_rerun d)
    x (_server_cases d) (_exceptions d) (_queues d) (recorder d) (models d).
Definition set_server_cases x (d : driver) : driver :=
  mkDriver (max_retries d) (reload_model d) (_stop d) (_iter d) (_todo d) (_rerun d)
    (_server_states d) x (_exceptions d) (_queues d) (recorder d) (models d).
Definition set_exceptions x (d : driver) : driver :=
  mkDriver (max_retries d) (reload_model d) (_stop d) (_iter d) (_todo d) (_rerun d)
    (_server_states d) (_server_cases d) x (_queues d) (recorder d) (models d).
Definition set_queues x (d : driver) : driver :=
  mkDriver (max_retries d) (reload_model d) (_stop d) (_iter d) (_todo d) (_rerun d)
    (_server_states d) (_server_cases d) (_exceptions d) x (recorder d) (models d).
Definition set_recorder x (d : driver) : driver :=
  mkDriver (max_retries d) (reload_model d) (_stop d) (_iter d) (_todo d) (_rerun d)
    (_server_states d) (_server_cases d) (_exceptions d) (_queues d) x (models d).
Definition set_models x (d : driver) : driver :=
  mkDriver (max_retries d) (reload_model d) (_stop d) (_iter d) (_todo d) (_rerun d)
    (_server_states d) (_server_cases d) (_exceptions d) (_queues d) (recorder d) x.

(** Methods of the driver: a state transformer that returns a value or
    raises; the driver is kept as the raise left it. *)
Definition M (A : Type) : Type := driver → result A * driver.

#[local] Instance M_ret : MRet M := λ A a d, (Ok a, d).
#[local] Instance M_bind : MBind M := λ A B f m d,
  match m d with
  | (Ok a, d') => f a d'
  | (Raise e, d') => (Raise e, d')
  end.

Definition raise {A} (e : exn) : M A := λ d, (Raise e, d).
Definition gets {A} (f : driver → A) : M A := λ d, (Ok (f d), d).
Definition modify (f : driver → driver) : M unit := λ d, (Ok tt, f d).

(** [try: body except ServerError, exc: handler(str(exc))] *)
Definition try_except_ServerError {A} (body : M A) (handler : string → M A) : M A :=
  λ d, match body d with
       | (Raise (ServerError text), d') => handler text d'
       | r => r
       end.

(** [d[key]], raising [KeyError] *)
Definition getitem {V} (f : driver → gmap server V) (key : server) : M V :=
  λ d, match f d !! key with
       | Some v => (Ok v, d)
       | None => (Raise (KeyError (from_option id "None" key)), d)
       end.

Definition _load_model (name : server) : M bool :=
  match name with
  | Some _ =>
      q ← getitem _queues name;
      modify (λ d, set_queues (<[name := q ++ [_remote_load_model name]]> (_queues d)) d);;
      mret true
  | None => mret true
  end.

(** [_model_set]: any exception of the model comes out as it is. *)
Definition _model_set (name : server) (var : string) (index val : value) : M bool :=
  λ d, let '(w, r) := model_set name var val index (models d) in
       match r with
       | None => (Ok true, set_models w d)
       | Some text => (Raise (Exception text), set_models w d)
       end.

Definition _model_get (name : server) (var : string) (index : value) : M value :=
  λ d, let '(w, r) := model_get name var index (models d) in
       match r with
       | inl v => (Ok v, set_models w d)
       | inr text => (Raise (Exception text), set_models w d)
       end.

Definition _model_execute (name : server) : M unit :=
  modify (λ d, set_exceptions (<[name := None]> (_exceptions d)) d);;
  match name with
  | None =>
      λ d, let '(w, r) := model_run (models d) in
           match r with
           | None => (Ok tt, set_models w d)
           | Some text =>
               (Ok tt, set_exceptions (<[name := Some text]> (_exceptions d))
                         (set_models w d))
           end
  | Some _ =>
      q ← getitem _queues name;
      modify (λ d, set_queues (<[name := q ++ [_remote_model_execute name]]> (_queues d)) d)
  end.

Definition _model_status (name : server) : M (option string) :=
  getitem _exceptions name.

(** Truth value of [None], an [int] or a [str] attribute. *)
Definition int_truthy (x : option Z) : bool :=
  match x with Some n => negb (bool_decide (n = 0%Z)) | None => false end.
Definition str_truthy (x : option string) : bool :=
  match x with Some s => negb (bool_decide (s = "")) | None => false end.

(** [a < b] of Python 2 on [None] or [int]: [None] is below every
    [int]. *)
Definition py_lt (a b : option Z) : bool :=
  match a, b with
  | Some x, Some y => bool_decide (x < y)%Z
  | None, Some _ => true
  | _, None => false
  end.

(** [for name, index, value in case.inputs: ...] *)
Fixpoint set_inputs_loop (name : server) (inputs : list (string * value * value))
    : M unit :=
  match inputs with
  | [] => mret tt
  | (var, index, val) :: rest =>
      (λ d, match _model_set name var index val d with
            | (Raise e, d') =>
                let text := match e with
                            | KeyError t | NameError t | AttributeError t
                            | TypeError t | ServerError t | TracedError t
                            | Exception t => t
                            end in
                let msg := "Exception setting '" +:+ var +:+ "': " +:+ text in
                (Raise (ServerError (raise_exception_text msg)), d')
            | (Ok _, d') => (Ok tt, d')
            end);;
      set_inputs_loop name rest
  end.

(** [self._server_cases[server] = case]; also used to keep that entry
    in step when [_run_case] goes on changing the case object it holds. *)
Definition assign_case (name : server) (c : option case.t) : M unit :=
  modify (λ d, set_server_cases (<[name := c]> (_server_cases d)) d).

Definition assign_state (name : server) (st : string) : M unit :=
  modify (λ d, set_server_states (<[name := st]> (_server_states d)) d).

Definition _run_case (c : case.t) (name : server) (rerun : bool) : M unit :=
  self_max_retries ← gets max_retries;
  let c :=
    if negb rerun then
      let c := if negb (int_truthy (case.max_retries c))
               then case.set_max_retries (Some self_max_retries) c else c in
      case.set_retries (Some 0%Z) c
    else c in
  let c := case.set_msg None c in
  assign_case name (Some c);;
  try_except_ServerError
    (set_inputs_loop name (case.inputs c);;
     _model_execute name;;
     assign_state name _COMPLETE)
    (λ text,
       assign_state name _ERROR;;
       if py_lt (case.retries c) (case.max_retries c) then
         match case.retries c with
         | Some r =>
             let c := case.set_retries (Some (r + 1)%Z) c in
             assign_case name (Some c);;
             modify (λ d, set_rerun (_rerun d ++ [c]) d)
         | None =>
             raise (TypeError "unsupported operand type(s) for +=: 'NoneType' and 'int'")
         end
       else
         let c := case.set_msg (Some text) c in
         assign_case name (Some c);;
         modify (λ d, set_recorder (recorder d ++ [c]) d)).

(** [for i, niv in enumerate(case.outputs): ...], from index [i] on;
    returns the case as the loop leaves it. *)
Fixpoint get_outputs_loop (name : server) (i : nat)
    (todo : list (string * value * value)) (c : case.t) : M case.t :=
  match todo with
  | [] => mret c
  | (var, index, old) :: rest =>
      c ← (λ d, match _model_get name var index d with
                | (Ok v, d') =>
                    (Ok (case.set_outputs (<[i := (var, index, v)]> (case.outputs c)) c), d')
                | (Raise e, d') =>
                    let text := match e with
                                | KeyError t | NameError t | AttributeError t
                                | TypeError t | ServerError t | TracedError t
                                | Exception t => t
                                end in
                    let msg := "Exception getting '" +:+ var +:+ "': " +:+ text in
                    (Ok (case.set_msg (Some (get_pathname +:+ ": " +:+ msg)) c), d')
                end);
      get_outputs_loop name (S i) rest c
  end.

Definition _server_ready (name : server) : M bool :=
  state ← getitem _server_states name;
  let in_use := true in
  if decide (state = _EMPTY) then
    try_except_ServerError
      (_load_model name;; assign_state name _READY)
      (λ _, assign_state name _ERROR);;
    mret in_use
  else if decide (state = _READY) then
    stop ← gets _stop;
    let in_use := if (stop : bool) then false else in_use in
    todo ← gets _todo;
    rerun ← gets _rerun;
    match (todo : list case.t), (rerun : list case.t) with
    | c :: todo', _ =>
        modify (set_todo todo');;
        _run_case c name false;;
        mret in_use
    | [], c :: rerun' =>
        modify (set_rerun rerun');;
        _run_case c name true;;
        mret in_use
    | [], [] =>
        it ← gets _iter;
        match (it : list case.t) with
        | [] => mret false
        | c :: it' =>
            modify (set_iter it');;
            _run_case c name false;;
            mret in_use
        end
    end
  else if decide (state = _COMPLETE) then
    oc ← getitem _server_cases name;
    assign_case name None;;
    try_except_ServerError
      (exc ← _model_status name;
       c ← match (oc : option case.t) with
           | None => raise (AttributeError "'NoneType' object has no attribute 'outputs'")
           | Some c =>
               match (exc : option string) with
               | None => get_outputs_loop name 0 (case.outputs c) c
               | Some text => mret (case.set_msg (Some text) c)
               end
           end;
       modify (λ d, set_recorder (recorder d ++ [c]) d);;
       (if negb (str_truthy (case.msg c)) then
          (reload ← gets reload_model;
           if (reload : bool) then _load_model name;; mret tt else mret tt)
        else _load_model name;; mret tt);;
       assign_state name _READY)
      (λ _, mret tt);;
    mret in_use
  else if decide (state = _ERROR) then
    assign_case name None;;
    try_except_ServerError
      (_load_model name;; assign_state name _READY)
      (λ _, mret tt);;
    mret in_use
  else
    mret false.

(** *** Reading the steps *)

(** The case as [_run_case] has it when it enters its [try] block. *)
Definition prepared (self_max_retries : Z) (rerun : bool) (c : case.t) : case.t :=
  let c :=
    if rerun then c
    else case.set_retries (Some 0%Z)
           (if int_truthy (case.max_retries c) then c
            else case.set_max_retries (Some self_max_retries) c) in
  case.set_msg None c.

(** Setting the inputs one after the other on the model of a worker:
    the models afterwards, and the text of the [ServerError] of the first
    input that could not be set. *)
Fixpoint setup (name : server) (inputs : list (string * value * value))
    (w : world) : world * option string :=
  match inputs with
  | [] => (w, None)
  | (var, index, val) :: rest =>
      match model_set name var val index w with
      | (w', None) => setup name rest w'
      | (w', Some text) =>
          (w', Some (raise_exception_text
                       ("Exception setting '" +:+ var +:+ "': " +:+ text)))
      end
  end.

(** The answer of [_server_ready] after it ran a case: [in_use] is
    still [True] unless the step raised. *)
Definition still_in_use (x : result unit * driver) : result bool * driver :=
  (match x.1 with Ok _ => Ok true | Raise e => Raise e end, x.2).

End driver.

(** *** Example drivers: the local worker, a model without state *)

Definition ex_model_set : server → string → value → value → () → () * option string :=
  λ _ var _ _ w, (w, if decide (var = "bad") then Some "boom" else None).
Definition ex_model_get : server → string → value → () → () * (value + string) :=
  λ _ var _ w, (w, if decide (var = "nope") then inr "no such output" else inl (py_int 7)).
Definition ex_model_run : () → () * option string := λ w, (w, None).
Definition ex_raise_text : string → string := λ msg, "driver: " +:+ msg.

Definition ex_case_bad : case.t :=
  case.mk [("bad", VNone, py_int 1)] [] (Some 0%Z) None None.
Definition ex_case_good : case.t :=
  case.mk [("x", VNone, py_int 1)] [("y", VNone, VMissing)] None None None.

(** A driver with [max_retries = 1] and [reload_model = False] whose
    local worker is in state [st], holds [held] and has the execution
    status [status]. *)
Definition ex_driver (st : string) (held : option case.t) (status : option string)
    (todo rerun it : list case.t) : @driver () :=
  {| max_retries := 1; reload_model := false; _stop := false;
     _iter := it; _todo := todo; _rerun := rerun;
     _server_states := {[ None := st ]};
     _server_cases := {[ None := held ]};
     _exceptions := {[ None := status ]};
     _queues := ∅;
     recorder := [];
     models := tt |}.


End Driver.


(** ** case.py: access by name, and applying a case to a scope *)

Module CaseOps.
Import CaseObj.

Definition is_Missing (v : value) : bool :=
  match v with VMissing => true | _ => false end.

(** [name in d] *)
Definition contains {V} (d : list (string * V)) (name : string) : bool :=
  bool_decide (name ∈ Dict.keys d).

Definition __getitem__ (name : string) (self : Case) : result value :=
  let val := default VMissing (Dict.get (_inputs self) name) in
  if negb (is_Missing val) then Ok val
  else if truthy (_outputs self) then
    match Dict.get (default [] (_outputs self)) name with
    | Some v => Ok v
    | None => Raise (KeyError name)
    end
  else Raise (KeyError ("'" +:+ name +:+ "' not found")).

(** [__setitem__]: the case as it is left, and the exception if one was
    raised. *)
Definition __setitem__ (name : string) (val : value) (self : Case)
    : Case * option exn :=
  if truthy (_outputs self) && contains (default [] (_outputs self)) name then
    (set_outputs (Some (Dict.set (default [] (_outputs self)) name val)) self, None)
  else if contains (_inputs self) name then
    (set_inputs (Dict.set (_inputs self) name val) self, None)
  else (self, Some (KeyError ("'" +:+ name +:+ "' not found"))).

(** The truth value of what [__contains__] returns. *)
Definition __contains__ (name : string) (self : Case) : bool :=
  contains (_inputs self) name
  || (truthy (_outputs self) && contains (default [] (_outputs self)) name).

Definition get_input (name : string) (self : Case) : result value :=
  match Dict.get (_inputs self) name with
  | Some v => Ok v
  | None => Raise (KeyError name)
  end.

Definition get_output (name : string) (self : Case) : result value :=
  if truthy (_outputs self) then
    match Dict.get (default [] (_outputs self)) name with
    | Some v => Ok v
    | None => Raise (KeyError name)
    end
  else Raise (KeyError ("'" +:+ name +:+ "' not found")).

Definition values (iotype : option string) (flatten : bool) (self : Case)
    : result (list value) :=
  match items iotype flatten self with
  | Ok kvs => Ok (kvs.*2)
  | Raise e => Raise e
  end.

Section apply_inputs.

(** The scope is an object outside the case: [S] is its state,
    [set_case_id] is the assignment to [scope._case_id], [scope_set] is
    [scope.set(name, value)] and [expr_set] is [expr.set(value, scope)].
    The two calls give the scope as they leave it and the text of the
    exception if they raised. *)
Context {S : Type}.
Variable set_case_id : string → S → S.
Variable scope_set : string → value → S → S * option string.
Variable expr_set : ExprEvaluator → value → S → S * option string.

(** [for name, value in self._inputs.items(): ...], stopping at the
    first call that raises. *)
Fixpoint apply_loop (call : string → value → S → S * option string)
    (inputs : list item) (sc : S) : S * option string :=
  match inputs with
  | [] => (sc, None)
  | (name, val) :: rest =>
      match call name val sc with
      | (sc', None) => apply_loop call rest sc'
      | (sc', Some err) => (sc', Some err)
      end
  end.

Definition apply_inputs (self : Case) (sc : S) : S * option string :=
  let sc := set_case_id (uuid self) sc in
  if truthy (_exprs self) then
    apply_loop (λ name val,
                  match Dict.get (default [] (_exprs self)) name with
                  | Some expr => expr_set expr val
                  | None => scope_set name val
                  end) (_inputs self) sc
  else apply_loop scope_set (_inputs self) sc.

End apply_inputs.

(** *** Reading the methods *)

(** Every name that is not a legal variable name has its evaluator, and
    only the names of the case have one. *)
Definition exprs_registered (is_legal_name : string → bool) (c : Case) : Prop :=
  ∀ name,
    Dict.get (default [] (_exprs c)) name
    = if is_legal_name name then None
      else if __contains__ name c then Some (mkExpr name) else None.

(** A value that [flatten_obj] leaves as it is, under its own name. *)
Definition plain (v : value) : Prop :=
  ∀ name, Flatten.flatten_obj name v = [(name, v)].

(** Two cases that agree on everything but their entries and evaluators. *)
Definition same_meta (c' c : Case) : Prop :=
  parent_uuid c' = parent_uuid c ∧ max_retries c' = max_retries c ∧
  timestamp c' = timestamp c ∧ uuid c' = uuid c ∧ label c' = label c ∧
  (msg c' = msg c ∧ retries c' = retries c).

(** An [int] or a [str] object (of the class itself, not of a class
    derived from it), and a case all of whose values are such. *)
Definition int_or_str (v : value) : Prop :=
  (∃ n, v = py_int n) ∨ (∃ s, v = py_str s).
Definition int_or_str_case (c : Case) : Prop :=
  Forall (λ kv : item, int_or_str kv.2) (_inputs c ++ default [] (_outputs c)).

(** The names [subcase] cannot resolve: neither an input with a value
    other than [None] nor an output. *)
Definition unresolved (c : Case) (name : string) : Prop :=
  (∀ v, Dict.get (_inputs c) name = Some v → v = VNone) ∧
  Dict.get (default [] (_outputs c)) name = None.

(** What the loop of [subcase] takes for a name: the input of that
    name, or else the output of that name. *)
Definition as_input (c : Case) (name : string) : option item :=
  v ← Dict.get (_inputs c) name; Some (name, v).
Definition as_output (c : Case) (name : string) : option item :=
  match Dict.get (_inputs c) name with
  | Some _ => None
  | None => v ← Dict.get (default [] (_outputs c)) name; Some (name, v)
  end.

(** *** Examples *)

(** A scope that is a dict of attributes and refuses the name [bad]. *)
Definition ex_scope_set : string → value → list item → list item * option string :=
  λ name val sc,
    if decide (name = "bad") then (sc, Some "no such attribute")
    else (Dict.set sc name val, None).
Definition ex_expr_set : ExprEvaluator → value → list item → list item * option string :=
  λ expr val sc, let 'mkExpr text := expr in (Dict.set sc text val, None).
Definition ex_set_case_id : string → list item → list item :=
  λ id sc, Dict.set sc "_case_id" (py_str id).

(** Names with a bracket are not legal variable names. *)
Definition ex_legal : string → bool :=
  λ name, negb (bool_decide (name = "a[0]")).

(** [Case(inputs=[('a[0]', 1), ('b', 2)])] *)
Definition case_ab : Case :=
  __init__ ex_legal "uuid-f" 0 (Some [("a[0]", py_int 1); ("b", py_int 2)]) None
           None None "" None "" None.

End CaseOps.


(** ** caseiterdriver.py: a sequential run *)

Module Sequential.
Import Driver.

#[local] Existing Instances M_ret M_bind.

Section driver.

Context {world : Type}.
Variable model_set : server → string → value → value → world → world * option string.
Variable model_get : server → string → value → world → world * (value + string).
Variable model_run : world → world * option string.
Variable get_pathname : string.
Variable raise_exception_text : string → string.

#[local] Abbreviation _server_ready :=
  (_server_ready model_set model_get model_run get_pathname raise_exception_text).

(** [while self._server_ready(server): pass], given up after [fuel]
    turns: [Some tt] when the loop has ended, [None] when the turns ran
    out first. *)
Fixpoint while_server_ready (fuel : nat) (name : server) : M (option ()) :=
  match fuel with
  | O => mret None
  | S fuel =>
      in_use ← _server_ready name;
      if (in_use : bool) then while_server_ready fuel name else mret (Some tt)
  end.

(** [_start] with [self.sequential] set; [iterator] is what
    [self.iterator.__iter__()] yields.  Of the per-server data the
    method clears, [_servers], [_top_levels] and [_in_use] are used by
    concurrent runs only. *)
Definition _start (fuel : nat) (iterator : list case.t) : M (option ()) :=
  modify (set_queues ∅);;
  modify (set_server_states ∅);;
  modify (set_server_cases ∅);;
  modify (set_exceptions ∅);;
  modify (set_todo []);;
  modify (set_rerun []);;
  modify (set_iter iterator);;
  it ← gets _iter;
  match (it : list case.t) with
  | [] => mret (Some tt)
  | c :: it' =>
      modify (set_iter it');;
      modify (λ d, set_todo (_todo d ++ [c]) d);;
      assign_case None None;;
      assign_state None _EMPTY;;
      while_server_ready fuel None
  end.

(** [k] turns of the loop on the local worker take the driver from [d]
    to [d']. *)
Definition turns (k : nat) (d d' : @driver world) : Prop :=
  ∀ n, while_server_ready (k + n) None d = while_server_ready n None d'.

(** The local worker is ready, no case is waiting in [_todo] or
    [_rerun], and no stop was requested. *)
Definition ready_for (it : list case.t) (d : @driver world) : Prop :=
  _server_states d !! None = Some _READY ∧
  _todo d = [] ∧ _rerun d = [] ∧ _iter d = it ∧ _stop d = false.

End driver.

(** *** Reading a run *)

(** What a recorded case has of the case it was made from: the inputs,
    and the names and indices of the outputs. *)
Definition recorded_as (c c' : case.t) : Prop :=
  case.inputs c' = case.inputs c ∧ (case.outputs c').*1 = (case.outputs c).*1.

(** Two drivers with the same settings. *)
Definition same_settings {world : Type} (d' d : @driver world) : Prop :=
  max_retries d' = max_retries d ∧ reload_model d' = reload_model d ∧
  _stop d' = _stop d.

(** The answer of [_server_ready] after it ran a case: [in_use] is
    [False] when a stop was requested. *)
Definition in_use_after {world : Type} (stop : bool)
    (x : result unit * @driver world) : result bool * @driver world :=
  (match x.1 with Ok _ => Ok (negb stop) | Raise e => Raise e end, x.2).

(** *** Examples *)

(** The local worker is ready, a stop was requested and one more case is
    left in the iterator. *)
Definition ex_stopped_driver : @driver () :=
  {| max_retries := 1; reload_model := false; _stop := true;
     _iter := [ex_case_good]; _todo := []; _rerun := [];
     _server_states := {[ None := _READY ]};
     _server_cases := {[ None := None ]};
     _exceptions := ∅;
     _queues := ∅;
     recorder := [];
     models := tt |}.


End Sequential.
(** * Properties *)

(** ** Flattening *)

Module FlattenFacts.
Import Flatten.

(** The test [isinstance(entry, (tuple, list, array))] of
    [_recurse_flatten] singles out the sequences. *)
Lemma isinstance_sequence (obj : value) :
  isinstance obj [Q q_tuple; Q q_list; Q q_array]
  = match obj with VSeq _ _ _ => true | _ => false end.
Proof.
  destruct obj as [| |ty bases p|sub root xs]; try reflexivity.
  - unfold isinstance; simpl. induction bases as [|b bs IH]; [reflexivity|].
    simpl in *. exact IH.
  - unfold isinstance; simpl. induction sub as [|n sub IH]; simpl.
    + destruct root; reflexivity.
    + exact IH.
Qed.

Lemma flatten_entry_seq name idx sub root xs ret :
  flatten_entry name idx (VSeq sub root xs) ret = enumerate_from name idx 0 xs ret.
Proof.
  simpl. generalize 0 ret. induction xs as [|x xs IH]; intros i r; [reflexivity|].
  simpl. apply IH.
Qed.

Lemma leaves_seq sub root xs :
  leaves (VSeq sub root xs) = children_leaves 0 xs.
Proof.
  simpl. generalize 0. induction xs as [|x xs IH]; intros i; [reflexivity|].
  simpl. by rewrite IH.
Qed.

Lemma enumerate_from_leaves name idx (lst : list value) :
  Forall (λ v, ∀ idx' ret,
            flatten_entry name idx' v ret = ret ++ map (render name idx') (leaves v)) lst →
  ∀ i ret,
    enumerate_from name idx i lst ret
    = ret ++ map (render name idx) (children_leaves i lst).
Proof.
  induction 1 as [|x xs Hx _ IH]; intros i ret; simpl.
  - by rewrite app_nil_r.
  - rewrite IH, Hx, map_app, <- app_assoc. do 2 f_equal.
    rewrite map_map. apply map_ext. intros [p v]. unfold render; simpl.
    by rewrite <- app_assoc.
Qed.

Lemma flatten_entry_leaves name (v : value) :
  ∀ idx ret, flatten_entry name idx v ret = ret ++ map (render name idx) (leaves v).
Proof.
  induction v as [| |ty bases p|sub root xs IH] using value_induction; intros idx ret;
    try (simpl; unfold render; simpl; by rewrite app_nil_r).
  rewrite flatten_entry_seq, leaves_seq. by apply enumerate_from_leaves.
Qed.

Lemma flatten_lst_leaves name sub root xs :
  _flatten_lst name (VSeq sub root xs)
  = map (λ pv, (name +:+ idxstr pv.1, pv.2)) (leaves (VSeq sub root xs)).
Proof.
  unfold _flatten_lst, _recurse_flatten.
  rewrite <- (flatten_entry_seq name [] sub root xs []), flatten_entry_leaves.
  reflexivity.
Qed.

Lemma walk_mro_named name obj (sub : list string) rest :
  walk_mro (map (λ n, K (a_named n)) sub ++ rest) name obj = walk_mro rest name obj.
Proof. induction sub as [|n sub IH]; [reflexivity|]. simpl. exact IH. Qed.

Lemma flatten_obj_sequence name sub root xs :
  flatten_obj name (VSeq sub root xs) = _flatten_lst name (VSeq sub root xs).
Proof.
  unfold flatten_obj. destruct sub as [|n sub]; simpl getmro_type.
  - destruct root; reflexivity.
  - simpl. rewrite walk_mro_named. destruct root; reflexivity.
Qed.

Lemma walk_mro_scalar name obj (cls : list aclass) :
  Exists (λ a, a ∈ [a_int; a_float; a_str; a_unicode]) cls →
  walk_mro (map K cls) name obj = [(name, obj)].
Proof.
  induction 1 as [a cls Ha|a cls _ IH]; simpl.
  - repeat (apply elem_of_cons in Ha as [->|Ha]; [reflexivity|]).
    by apply elem_of_nil in Ha.
  - destruct a; try reflexivity. simpl. exact IH.
Qed.

Lemma flatten_obj_scalar name obj :
  scalar_or_string obj → flatten_obj name obj = [(name, obj)].
Proof.
  destruct obj as [| |ty bases p|sub root xs]; simpl; try done.
  intros H. unfold flatten_obj; simpl. destruct ty; try reflexivity. simpl.
  apply Exists_cons in H as [H|H].
  - repeat (apply elem_of_cons in H as [?|H]; [discriminate|]).
    by apply elem_of_nil in H.
  - by apply walk_mro_scalar.
Qed.

Lemma walk_mro_none name obj (mro : list pyclass) :
  Forall (λ k, flatteners_get flatteners k = None) mro → walk_mro mro name obj = [].
Proof.
  induction 1 as [|k mro Hk _ IH]; [reflexivity|].
  cbn [walk_mro]. by rewrite Hk.
Qed.

Lemma flatten_obj_none name obj :
  no_handler obj → flatten_obj name obj = [].
Proof.
  unfold no_handler, flatten_obj. intros H.
  destruct (getmro_type obj) as [|k mro] eqn:E.
  - reflexivity.
  - apply Forall_cons in H as [Hk H]. cbn [hd tail]. rewrite Hk. by apply walk_mro_none.
Qed.

(** Paths are written as the name followed by one bracketed index for
    every level. *)
Example idxstr_example : idxstr [0; 3] = "[0][3]".
Proof. reflexivity. Qed.

(** A [bool] is flattened as the [int] it derives from; a [long] has no
    flattener, neither for its class nor for [object]. *)
Example flatten_bool : flatten_obj "b" (py_bool true) = [("b", py_bool true)].
Proof. reflexivity. Qed.

Example flatten_long : flatten_obj "n" (py_long 7) = [].
Proof. reflexivity. Qed.

(** C8, amended: [flatten_obj name obj] is [[(name, obj)]] when the class
    of [obj], or one of its ancestors, is [int], [float], [str] or
    [unicode] (not for every scalar number: see the counterexample); for a
    list, tuple or array (or an instance of a class derived from one) it is
    one pair per leaf, left to right, each under the name followed by the
    bracketed index of every level; and it is empty when neither the class
    of [obj] nor any class of its resolution order has a flattener. *)
Theorem flatten_obj_spec (name : string) (obj : value) :
  (scalar_or_string obj → flatten_obj name obj = [(name, obj)]) ∧
  (∀ sub root xs, obj = VSeq sub root xs →
     flatten_obj name obj = map (λ pv, (name +:+ idxstr pv.1, pv.2)) (leaves obj)) ∧
  (no_handler obj → flatten_obj name obj = []).
Proof.
  split; [|split].
  - apply flatten_obj_scalar.
  - intros sub root xs ->. rewrite flatten_obj_sequence. apply flatten_lst_leaves.
  - apply flatten_obj_none.
Qed.

Lemma flatten_obj_spec_witness :
  flatten_obj "x" (py_int 3) = [("x", py_int 3)] ∧
  flatten_obj "x" (py_list [py_int 1; py_tuple [py_int 2; py_str "a"]])
  = [("x[0]", py_int 1); ("x[1][0]", py_int 2); ("x[1][1]", py_str "a")] ∧
  flatten_obj "x" VNone = [].
Proof.
  split; [|split].
  - apply (proj1 (flatten_obj_spec "x" (py_int 3))).
    apply Exists_cons_hd. apply list_elem_of_here.
  - exact (proj1 (proj2 (flatten_obj_spec "x"
             (py_list [py_int 1; py_tuple [py_int 2; py_str "a"]]))) _ _ _ eq_refl).
  - apply (proj2 (proj2 (flatten_obj_spec "x" VNone))).
    repeat constructor.
Defined.

(** C8 fails at the [long] [7L] and at a [complex]: they are scalar
    numbers, but neither class has a flattener, nor has [object], and
    they are flattened to nothing. *)
Lemma flatten_obj_spec_counterexample :
  flatten_obj "n" (py_long 7) = [] ∧
  flatten_obj "n" (py_long 7) ≠ [("n", py_long 7)] ∧
  flatten_obj "z" (VObj (a_named "complex") [a_named "object"] (POpaque 0)) = [].
Proof. split; [reflexivity|]. split; [discriminate|reflexivity]. Qed.

End FlattenFacts.

(** Closing a decidable, closed goal by evaluating its decision
    procedure. *)
Ltac decide_by_computation :=
  apply (bool_decide_unpack _); vm_compute; exact I.

(** ** Dictionaries *)

Module DictFacts.
Section dict.
Context {V : Type}.
Implicit Types d : list (string * V).

Lemma get_None d k : k ∉ Dict.keys d → Dict.get d k = None.
Proof.
  unfold Dict.keys. induction d as [|[k' v] d IH]; intros Hk; [done|].
  simpl. rewrite fmap_cons, not_elem_of_cons in Hk. destruct Hk as [Hne Hk].
  simpl in Hne. by rewrite decide_False, IH.
Qed.

Lemma get_Some d k v :
  NoDup (Dict.keys d) → (k, v) ∈ d → Dict.get d k = Some v.
Proof.
  unfold Dict.keys. induction d as [|[k' v'] d IH]; intros Hnd Hin.
  - by apply elem_of_nil in Hin.
  - rewrite fmap_cons in Hnd. apply NoDup_cons in Hnd as [Hk' Hnd]. simpl.
    apply elem_of_cons in Hin as [Heq|Hin].
    + injection Heq as -> ->. by rewrite decide_True.
    + rewrite decide_False; [by apply IH|].
      intros ->. apply Hk'. simpl. apply list_elem_of_fmap. by exists (k', v).
Qed.

Lemma get_is_Some d k : k ∈ Dict.keys d → is_Some (Dict.get d k).
Proof.
  unfold Dict.keys. induction d as [|[k' v] d IH]; intros Hk.
  - by apply elem_of_nil in Hk.
  - simpl. destruct (decide (k = k')) as [->|Hne]; [by eexists|].
    rewrite fmap_cons in Hk. apply elem_of_cons in Hk as [?|Hk]; [done|]. by apply IH.
Qed.

Lemma set_app_here (pre : list (string * V)) k v v' rest :
  k ∉ Dict.keys pre →
  Dict.set (pre ++ (k, v) :: rest) k v' = pre ++ (k, v') :: rest.
Proof.
  unfold Dict.keys. induction pre as [|[k0 v0] pre IH]; intros Hk; simpl.
  - by rewrite decide_True.
  - rewrite fmap_cons, not_elem_of_cons in Hk. destruct Hk as [Hne Hk].
    simpl in Hne. rewrite decide_False by done. by rewrite IH.
Qed.

Lemma set_fresh d k v : k ∉ Dict.keys d → Dict.set d k v = d ++ [(k, v)].
Proof.
  unfold Dict.keys. induction d as [|[k0 v0] d IH]; intros Hk; simpl; [done|].
  rewrite fmap_cons, not_elem_of_cons in Hk. destruct Hk as [Hne Hk].
  simpl in Hne. rewrite decide_False by done. by rewrite IH.
Qed.

Lemma keys_set d k v : k ∈ Dict.keys d → Dict.keys (Dict.set d k v) = Dict.keys d.
Proof.
  unfold Dict.keys. induction d as [|[k0 v0] d IH]; intros Hk.
  - by apply elem_of_nil in Hk.
  - simpl. destruct (decide (k = k0)) as [->|Hne]; [done|].
    rewrite fmap_cons in Hk. apply elem_of_cons in Hk as [?|Hk]; [done|].
    rewrite !fmap_cons. f_equal. by apply IH.
Qed.

(** Assigning to every key of a dict, in the order of its keys. *)
Lemma assign_all_from (f : string → V) (rest : list (string * V)) :
  ∀ pre, NoDup (Dict.keys (pre ++ rest)) →
    foldl (λ d k, Dict.set d k (f k)) (pre ++ rest) (Dict.keys rest)
    = pre ++ map (λ kv, (kv.1, f kv.1)) rest.
Proof.
  induction rest as [|[k v] rest IH]; intros pre Hnd; [done|].
  simpl. rewrite set_app_here.
  - rewrite (cons_middle (k, f k)), (assoc_L (++)). rewrite IH; [by rewrite <- (assoc_L (++))|].
    revert Hnd. unfold Dict.keys. by rewrite !fmap_app, !fmap_cons, <- (assoc_L (++)).
  - intros Hin. revert Hnd. unfold Dict.keys in *. rewrite fmap_app, fmap_cons.
    intros [_ [Hd _]]%NoDup_app. apply (Hd k Hin). simpl. apply list_elem_of_here.
Qed.

Lemma assign_all (f : string → V) d :
  NoDup (Dict.keys d) →
  foldl (λ d k, Dict.set d k (f k)) d (Dict.keys d) = map (λ kv, (kv.1, f kv.1)) d.
Proof. intros Hnd. by apply (assign_all_from f d []). Qed.

(** Building a dict by assigning fresh keys one after the other. *)
Lemma build_from (l : list (string * V)) :
  ∀ pre, NoDup (Dict.keys (pre ++ l)) →
    foldl (λ d kv, Dict.set d kv.1 kv.2) pre l = pre ++ l.
Proof.
  induction l as [|[k v] l IH]; intros pre Hnd; simpl.
  - by rewrite app_nil_r.
  - rewrite set_fresh.
    + rewrite IH; [by rewrite <- (assoc_L (++))|]. by rewrite <- (assoc_L (++)).
    + intros Hin. revert Hnd. unfold Dict.keys in *. rewrite fmap_app, fmap_cons.
      intros [_ [Hd _]]%NoDup_app. apply (Hd k Hin). simpl. apply list_elem_of_here.
Qed.

End dict.
End DictFacts.

(** ** The Case class *)

Module CaseFacts.
Import CaseObj.

Lemma append_assoc (a b c : string) : (a +:+ b) +:+ c = a +:+ (b +:+ c).
Proof.
  induction a as [|ch a IH]; [done|].
  change (String ch ((a +:+ b) +:+ c) = String ch (a +:+ (b +:+ c))). by rewrite IH.
Qed.

(** *** reset *)

Lemma reset_loop (keys : list string) :
  ∀ (self : Case) (outs : list item),
    _outputs self = Some outs →
    foldl (λ self key,
             set_outputs (Some (Dict.set (default [] (_outputs self)) key VMissing)) self)
          self keys
    = set_outputs (Some (foldl (λ d k, Dict.set d k VMissing) outs keys)) self.
Proof.
  induction keys as [|k keys IH]; intros self outs Hout; simpl.
  - destruct self; simpl in *. by rewrite Hout.
  - rewrite (IH _ (Dict.set outs k VMissing)); [|by rewrite Hout].
    rewrite Hout. by destruct self.
Qed.

(** C10: [reset] fails exactly on a case whose outputs mapping is [None];
    on a case with outputs it takes the fresh uuid, clears [parent_uuid]
    and [retries], leaves the sentinel in every output slot, and keeps
    inputs, label, max_retries and msg. *)
Theorem reset_spec (uuid1 : string) (self : Case) :
  (_outputs self = None →
     ∃ text, (reset uuid1 self).2 = Some (AttributeError text)) ∧
  (∀ outs, _outputs self = Some outs → NoDup (Dict.keys outs) →
     let self' := (reset uuid1 self).1 in
     (reset uuid1 self).2 = None ∧
     uuid self' = uuid1 ∧ parent_uuid self' = "" ∧ retries self' = None ∧
     _outputs self' = Some (map (λ kv, (kv.1, VMissing)) outs) ∧
     _inputs self' = _inputs self ∧ label self' = label self ∧
     max_retries self' = max_retries self ∧ msg self' = msg self).
Proof.
  split.
  - intros Hout. unfold reset. simpl. rewrite Hout. by eexists.
  - intros outs Hout Hnd. unfold reset. simpl. rewrite Hout. simpl.
    rewrite (reset_loop _ _ outs) by done.
    rewrite (DictFacts.assign_all (λ _, VMissing)) by done.
    destruct self; simpl. repeat split.
Qed.

Lemma reset_spec_witness :
  (∃ text, (reset "u2" case_x_none).2 = Some (AttributeError text)) ∧
  (reset "u2" case_xy_zw).2 = None ∧
  _outputs (reset "u2" case_xy_zw).1 = Some [("z", VMissing); ("w", VMissing)].
Proof.
  split; [|split].
  - apply (proj1 (reset_spec "u2" case_x_none)). reflexivity.
  - apply (proj2 (reset_spec "u2" case_xy_zw) [("z", VMissing); ("w", py_int 5)] eq_refl).
    decide_by_computation.
  - apply (proj2 (reset_spec "u2" case_xy_zw) [("z", VMissing); ("w", py_int 5)] eq_refl).
    decide_by_computation.
Defined.

(** *** update_outputs *)

Lemma append_error_all (errs : list string) :
  ∀ m, foldl append_error m errs = msg_after m errs.
Proof.
  induction errs as [|e errs IH]; intros m.
  - by destruct m.
  - simpl. rewrite IH. destruct m as [m|]; [|done].
    unfold msg_after; simpl. destruct errs as [|e' errs]; [done|].
    f_equal. by rewrite !append_assoc.
Qed.

Lemma update_loop (att : string → value + string) (names : list string) :
  ∀ (self : Case) (last_excpt : option exn) (outs : list item),
    _outputs self = Some outs →
    foldl (λ st name, update_one (att name) name st) (self, last_excpt) names
    = (set_msg (foldl append_error (msg self) (errors_of att names))
         (set_outputs (Some (foldl (λ d k, Dict.set d k (slot_of att k)) outs names)) self),
       match last (errors_of att names) with
       | Some e => Some (TracedError e)
       | None => last_excpt
       end).
Proof.
  induction names as [|k names IH];
    intros [ex o i mr r ms e l u pu ts] lst outs Hout; simpl in Hout; subst o.
  - reflexivity.
  - cbn [foldl]. unfold update_one at 2.
    cbn [_outputs default id msg set_outputs set_msg].
    unfold errors_of, slot_of in *. cbn [omap list_omap].
    destruct (att k) as [v|err] eqn:Hk.
    + by rewrite (IH _ _ (Dict.set outs k v)).
    + destruct ms as [m0|].
      * rewrite (IH _ _ (Dict.set outs k VMissing)) by done.
        cbn [msg foldl append_error set_msg set_outputs].
        rewrite last_cons. by destruct (last _).
      * rewrite (IH _ _ (Dict.set outs k VMissing)) by done.
        rewrite last_cons. by destruct (last _).
Qed.

(** Both loops of [update_outputs] evaluate an output the same way. *)
Lemma update_outputs_unfold (now : Z) (sc : scope) (m : option string) (self : Case) :
  update_outputs now sc m self
  = let '(self', last_excpt) :=
      match _outputs self with
      | Some outs =>
          foldl (λ st name, update_one (evaluate_output sc self name) name st)
                (set_msg m self, None) (Dict.keys outs)
      | None => (set_msg m self, None)
      end in
    (set_timestamp now self', last_excpt).
Proof.
  unfold update_outputs. destruct self as [ex o i mr r ms e l u pu ts].
  destruct o as [outs|]; [|reflexivity].
  destruct ex as [[|x ex]|]; reflexivity.
Qed.

(** C4: [update_outputs] leaves in every output slot what evaluating that
    output gave, or the sentinel where the evaluation failed; [msg] is the
    argument with the error texts of the failed outputs appended in order;
    [timestamp] is updated on every call; and the call raises exactly when
    some output failed, with the last such error, all outputs having been
    processed. *)
Theorem update_outputs_spec (now : Z) (sc : scope) (m : option string) (self : Case) :
  let r := update_outputs now sc m self in
  timestamp r.1 = now ∧
  (_outputs self = None → r = (set_timestamp now (set_msg m self), None)) ∧
  (∀ outs, _outputs self = Some outs → NoDup (Dict.keys outs) →
     let errs := failures sc self (Dict.keys outs) in
     _outputs r.1 = Some (map (λ kv, (kv.1, slot_after sc self kv.1)) outs) ∧
     msg r.1 = msg_after m errs ∧
     r.2 = TracedError <$> last errs ∧
     (r.2 ≠ None ↔
      ∃ name err, name ∈ Dict.keys outs ∧ evaluate_output sc self name = inr err)).
Proof.
  assert (Hloop : ∀ outs, _outputs self = Some outs →
            update_outputs now sc m self
            = (set_timestamp now
                 (set_msg (foldl append_error m (failures sc self (Dict.keys outs)))
                    (set_outputs
                       (Some (foldl (λ d k, Dict.set d k (slot_after sc self k)) outs
                                (Dict.keys outs))) self)),
               TracedError <$> last (failures sc self (Dict.keys outs)))).
  { intros outs Hout. rewrite update_outputs_unfold, Hout.
    rewrite (update_loop (evaluate_output sc self) _ _ _ outs) by done.
    unfold failures, slot_after. destruct (last _); by destruct self. }
  intros r. subst r. split; [|split].
  - unfold update_outputs. by destruct (match _outputs _ with Some _ => _ | None => _ end).
  - intros Hout. unfold update_outputs. cbn [_outputs set_msg]. by rewrite Hout.
  - intros outs Hout Hnd errs. rewrite (Hloop outs Hout). cbn [fst snd].
    split; [|split; [|split]].
    + simpl. by rewrite (DictFacts.assign_all (slot_after sc self)).
    + simpl. apply append_error_all.
    + done.
    + subst errs. unfold failures. split.
      * intros Hlast. destruct (last _) as [e|] eqn:He; [|done].
        apply last_Some_elem_of, list_elem_of_omap in He as (name & Hin & Hname).
        exists name, e. split; [done|].
        destruct (evaluate_output sc self name); congruence.
      * intros (name & err & Hin & Hname).
        assert (Herr : err ∈ errors_of (evaluate_output sc self) (Dict.keys outs)).
        { apply list_elem_of_omap. exists name. by rewrite Hname. }
        destruct (last _) as [e|] eqn:He; [done|].
        apply last_None in He. rewrite He in Herr. by apply elem_of_nil in Herr.
Qed.

Lemma update_outputs_spec_witness :
  let r := update_outputs 42 scope_z (Some "old") case_xy_zw in
  _outputs r.1 = Some [("z", py_int 7); ("w", VMissing)] ∧
  msg r.1 = Some "old no w" ∧
  r.2 = Some (TracedError "no w").
Proof.
  intros r.
  destruct (proj2 (proj2 (update_outputs_spec 42 scope_z (Some "old") case_xy_zw))
              [("z", VMissing); ("w", py_int 5)] eq_refl) as (H1 & H2 & H3 & _).
  { decide_by_computation. }
  exact (conj H1 (conj H2 H3)).
Defined.

(** *** Equality *)

Lemma value_eqb_refl (v : value) : value_eqb v v = true.
Proof.
  induction v as [| |ty bases p|sub root xs IH] using value_induction; simpl;
    rewrite ?bool_decide_eq_true_2 by done; try done.
  simpl. induction IH as [|x xs Hx _ IHxs]; [done|]. by rewrite Hx.
Qed.

Lemma eq_loop_same (xs : list item) : eq_loop (zip xs xs) = true.
Proof.
  induction xs as [|[k v] xs IH]; [done|].
  simpl. by rewrite bool_decide_eq_true_2, value_eqb_refl.
Qed.

(** [items()] without an [iotype] never raises: it is the inputs followed
    by the outputs. *)
Lemma items_all (flatten : bool) (c : Case) :
  items None flatten c
  = Ok (get_inputs flatten c
        ++ (if flatten then flatten_items (default [] (_outputs c))
            else default [] (_outputs c))).
Proof.
  unfold items, get_outputs.
  destruct (_outputs c) as [[|o outs]|]; simpl; try done;
    destruct flatten; by rewrite ?app_nil_r.
Qed.

(** A case compared with itself is equal, which is what the shortcut
    [if self is other: return True] of [__eq__] returns. *)
Lemma eq_same (c : Case) : __eq__ c c = true.
Proof.
  unfold __eq__. rewrite !bool_decide_eq_true_2 by done. cbn [negb orb].
  rewrite items_all. apply eq_loop_same.
Qed.

(** C5, at [Case(inputs=[('x', [1, 2])])] and [Case(inputs=[('x', [1])])]:
    [__eq__] answers [True] although the flattened items of the one are
    two and of the other one; [len] counts the entries before flattening
    and [zip] stops at the shorter sequence. *)
Theorem eq_ignores_flattened_length :
  __eq__ case_x12 case_x1 = true ∧
  msg case_x12 = msg case_x1 ∧ label case_x12 = label case_x1 ∧
  items None true case_x12 = Ok [("x[0]", py_int 1); ("x[1]", py_int 2)] ∧
  items None true case_x1 = Ok [("x[0]", py_int 1)].
Proof. repeat split. Qed.

(** *** subcase *)

(** C6, at [Case(inputs=[('x', None)])]: [x] is one of the names of the
    case, yet [subcase(['x'])] raises [KeyError], because an input whose
    value is [None] is taken for an absent one. *)
Theorem subcase_none_input_raises (uuid1 : string) (now : Z) :
  keys None false case_x_none = Ok ["x"] ∧
  subcase legal_all uuid1 now ["x"] case_x_none
  = Raise (KeyError "'x' is not part of this Case").
Proof. split; reflexivity. Qed.

Section subcase.
Variable is_legal_name : string → bool.

Lemma register_expr_fields s c :
  _inputs (_register_expr is_legal_name s c) = _inputs c ∧
  _outputs (_register_expr is_legal_name s c) = _outputs c.
Proof. unfold _register_expr. by destruct (negb _). Qed.

Lemma add_inputs_fields (l : list item) :
  ∀ c, _inputs (add_inputs is_legal_name l c)
       = foldl (λ d kv, Dict.set d kv.1 kv.2) (_inputs c) l ∧
       _outputs (add_inputs is_legal_name l c) = _outputs c.
Proof.
  unfold add_inputs. induction l as [|[k v] l IH]; intros c; [done|].
  cbn [foldl fst snd]. destruct (IH (add_input is_legal_name k v c)) as [-> ->].
  unfold add_input. cbn [_inputs _outputs set_inputs fst snd].
  by destruct (register_expr_fields k c) as [-> ->].
Qed.

Lemma add_outputs_fields (l : list item) :
  ∀ c, let c' := add_outputs is_legal_name (map (λ nv, OPair nv.1 nv.2) l) c in
       _inputs c' = _inputs c ∧
       _outputs c' = match l with
                     | [] => _outputs c
                     | _ => Some (foldl (λ d kv, Dict.set d kv.1 kv.2)
                                    (default [] (_outputs c)) l)
                     end.
Proof.
  unfold add_outputs. induction l as [|[k v] l IH]; intros c; [done|].
  cbn [map foldl fst snd]. destruct (IH (add_output is_legal_name k v c)) as [-> ->].
  unfold add_output.
  destruct (register_expr_fields k c) as [Hi Ho]. rewrite Ho.
  destruct (_outputs c) as [d|]; cbn [_inputs _outputs set_outputs default];
    rewrite Hi; by destruct l.
Qed.

End subcase.

End CaseFacts.

(** ** The dispatcher *)

Module DriverFacts.
Import Driver.

Section driver.
Context {world : Type}.
Variable model_set : server → string → value → value → world → world * option string.
Variable model_get : server → string → value → world → world * (value + string).
Variable model_run : world → world * option string.
Variable get_pathname : string.
Variable raise_exception_text : string → string.

#[local] Abbreviation driver := (@driver world).
#[local] Abbreviation _run_case := (_run_case model_set model_run raise_exception_text).
#[local] Abbreviation _server_ready :=
  (_server_ready model_set model_get model_run get_pathname raise_exception_text).
#[local] Abbreviation setup := (setup model_set raise_exception_text).
#[local] Abbreviation set_inputs_loop := (set_inputs_loop model_set raise_exception_text).
#[local] Abbreviation _model_execute := (_model_execute model_run).

Ltac unfold_M :=
  unfold assign_case, assign_state, try_except_ServerError;
  unfold mbind, M_bind, mret, M_ret, gets, modify, raise, getitem;
  cbv beta iota zeta.

Lemma set_inputs_loop_setup (name : server) (inputs : list (string * value * value)) :
  ∀ d : driver,
    set_inputs_loop name inputs d
    = (match (setup name inputs (models d)).2 with
       | None => Ok tt
       | Some text => Raise (ServerError text)
       end,
       set_models (setup name inputs (models d)).1 d).
Proof.
  induction inputs as [|[[var index] val] rest IH]; intros d.
  - by destruct d.
  - cbn [Driver.set_inputs_loop Driver.setup]. unfold_M. unfold _model_set.
    destruct (model_set name var val index (models d)) as [w [text|]]; [done|].
    rewrite IH. by destruct d.
Qed.

(** The first lines of [_run_case]. *)
Lemma prepared_eq (self_max_retries : Z) (rerun : bool) (c : case.t) :
  case.set_msg None
    (if negb rerun
     then case.set_retries (Some 0%Z)
            (if negb (int_truthy (case.max_retries c))
             then case.set_max_retries (Some self_max_retries) c
             else c)
     else c)
  = prepared self_max_retries rerun c.
Proof. unfold prepared. destruct rerun; [done|]. by destruct (int_truthy _). Qed.

Lemma prepared_inputs (self_max_retries : Z) (rerun : bool) (c : case.t) :
  case.inputs (prepared self_max_retries rerun c) = case.inputs c.
Proof. unfold prepared. destruct rerun; [done|]. by destruct (int_truthy _). Qed.

(** [_model_execute] never raises [ServerError]. *)
Lemma model_execute_no_ServerError (name : server) (d : driver) :
  ∀ text, (_model_execute name d).1 ≠ Raise (ServerError text).
Proof.
  intros text. unfold Driver._model_execute. unfold_M. destruct name as [s|]; simpl.
  - destruct (_ !! Some s); simpl; congruence.
  - destruct (model_run (models d)) as [w [e|]]; simpl; congruence.
Qed.

Lemma run_case_setup_failed (c : case.t) (name : server) (rerun : bool) (d : driver)
    (w : world) (text : string) (r : Z) :
  let c0 := prepared (max_retries d) rerun c in
  setup name (case.inputs c) (models d) = (w, Some text) →
  case.retries c0 = Some r →
  ∃ d', _run_case c name rerun d = (Ok tt, d') ∧
        _iter d' = _iter d ∧ _todo d' = _todo d ∧
        _server_states d' !! name = Some _ERROR ∧
        if py_lt (case.retries c0) (case.max_retries c0)
        then _rerun d' = _rerun d ++ [case.set_retries (Some (r + 1)%Z) c0] ∧
             recorder d' = recorder d ∧
             _server_cases d' !! name = Some (Some (case.set_retries (Some (r + 1)%Z) c0))
        else recorder d' = recorder d ++ [case.set_msg (Some text) c0] ∧
             _rerun d' = _rerun d ∧
             _server_cases d' !! name = Some (Some (case.set_msg (Some text) c0)).
Proof.
  intros c0 Hsetup Hr. unfold Driver._run_case. unfold_M.
  rewrite set_inputs_loop_setup.
  rewrite (prepared_eq (max_retries d) rerun c). fold c0.
  rewrite (prepared_inputs (max_retries d) rerun c : case.inputs c0 = _).
  cbn [models set_server_cases]. rewrite Hsetup. cbn [fst snd].
  rewrite Hr. destruct (py_lt (Some r) (case.max_retries c0));
    eexists; (split; [reflexivity|]); cbn; rewrite ?lookup_insert_eq; done.
Qed.

(** What [_model_execute] leaves alone. *)
Lemma model_execute_frame (name : server) (d : driver) :
  let d' := (_model_execute name d).2 in
  _iter d' = _iter d ∧ _todo d' = _todo d ∧ _rerun d' = _rerun d ∧
  recorder d' = recorder d ∧ _server_cases d' = _server_cases d ∧
  _server_states d' = _server_states d.
Proof.
  unfold Driver._model_execute. unfold_M. destruct name as [s|]; cbn.
  - by destruct (_ !! Some s).
  - by destruct (model_run (models d)) as [w [e|]].
Qed.

Lemma run_case_setup_ok (c : case.t) (name : server) (rerun : bool) (d : driver)
    (w : world) :
  let c0 := prepared (max_retries d) rerun c in
  let x := _run_case c name rerun d in
  setup name (case.inputs c) (models d) = (w, None) →
  _iter x.2 = _iter d ∧ _todo x.2 = _todo d ∧ _rerun x.2 = _rerun d ∧
  recorder x.2 = recorder d ∧
  _server_cases x.2 !! name = Some (Some c0) ∧
  (x.1 = Ok tt → _server_states x.2 !! name = Some _COMPLETE).
Proof.
  intros c0 x Hsetup. subst x. unfold Driver._run_case. unfold_M.
  rewrite set_inputs_loop_setup.
  rewrite (prepared_eq (max_retries d) rerun c). fold c0.
  rewrite (prepared_inputs (max_retries d) rerun c : case.inputs c0 = _).
  cbn [models set_server_cases]. rewrite Hsetup. cbn [fst snd].
  match goal with |- context [_model_execute name ?d1] =>
    pose proof (model_execute_frame name d1) as Hf;
    pose proof (model_execute_no_ServerError name d1) as Hno;
    destruct (_model_execute name d1) as [[[]|e] d2]
  end; cbn in Hf, Hno; destruct Hf as (? & ? & ? & ? & Hcases & ?).
  - cbn. rewrite Hcases, !lookup_insert_eq. by repeat split.
  - destruct e; try (by specialize (Hno text));
      cbn; rewrite Hcases, !lookup_insert_eq; by repeat split.
Qed.

(** [_run_case] leaves the iterator and the startup queue alone. *)
Lemma run_case_frame (c : case.t) (name : server) (rerun : bool) (d : driver) :
  let x := _run_case c name rerun d in
  _iter x.2 = _iter d ∧ _todo x.2 = _todo d.
Proof.
  intros x. subst x.
  destruct (setup name (case.inputs c) (models d)) as [w [text|]] eqn:Hsetup.
  - unfold Driver._run_case. unfold_M. rewrite set_inputs_loop_setup.
    rewrite (prepared_eq (max_retries d) rerun c), prepared_inputs.
    cbn [models set_server_cases]. rewrite Hsetup. cbn [fst snd].
    destruct (py_lt _ _); [destruct (case.retries _)|]; by cbn.
  - by destruct (run_case_setup_ok c name rerun d w Hsetup) as (? & ? & _).
Qed.

#[local] Abbreviation get_outputs_loop := (get_outputs_loop model_get get_pathname).

(** Reading the outputs never raises: a failure goes to [msg]. *)
Lemma get_outputs_loop_total (name : server) (todo : list (string * value * value)) :
  ∀ (i : nat) (c : case.t) (d : driver),
    ∃ c' w, get_outputs_loop name i todo c d = (Ok c', set_models w d).
Proof.
  induction todo as [|[[var index] old] todo IH]; intros i c d.
  - exists c, (models d). by destruct d.
  - cbn [Driver.get_outputs_loop]. unfold_M. unfold _model_get.
    destruct (model_get name var index (models d)) as [w [v|text]];
      match goal with |- context [get_outputs_loop name (S i) todo ?c1 ?d1] =>
        destruct (IH (S i) c1 d1) as (c' & w' & ->)
      end; by exists c', w'.
Qed.

(** [_load_model]: a request on the queue of a remote worker, nothing
    for the local one. *)
Lemma load_model_result (name : server) (d : driver) :
  let x := _load_model name d in
  recorder x.2 = recorder d ∧ _rerun x.2 = _rerun d ∧ _todo x.2 = _todo d ∧
  _iter x.2 = _iter d ∧ _server_states x.2 = _server_states d ∧
  (∀ text, x.1 ≠ Raise (ServerError text)) ∧
  ((∀ s, name = Some s → is_Some (_queues d !! name)) →
   x.1 = Ok true ∧
   _queues x.2
   = match name with
     | Some _ => <[name := default [] (_queues d !! name)
                             ++ [_remote_load_model name]]> (_queues d)
     | None => _queues d
     end).
Proof.
  unfold _load_model. unfold_M. destruct name as [s|]; cbn.
  - destruct (_queues d !! Some s) as [q|] eqn:Hq; cbn.
    + by repeat split.
    + repeat split; try done;
        match goal with H : ∀ _, _ → is_Some _ |- _ => by destruct (H s eq_refl) end.
  - by repeat split.
Qed.

(** The step of a worker whose execution is complete. *)
Lemma server_ready_complete (name : server) (d : driver) (c : case.t)
    (exc : option string) :
  _server_states d !! name = Some _COMPLETE →
  _server_cases d !! name = Some (Some c) →
  _exceptions d !! name = Some exc →
  ∃ c' r d',
    _server_ready name d = (r, d') ∧
    (∀ text, exc = Some text → c' = case.set_msg (Some text) c) ∧
    recorder d' = recorder d ++ [c'] ∧ _rerun d' = _rerun d ∧
    _todo d' = _todo d ∧ _iter d' = _iter d ∧
    ((∀ s, name = Some s → is_Some (_queues d !! name)) →
     r = Ok true ∧
     _server_states d' !! name = Some _READY ∧
     _queues d'
     = if str_truthy (case.msg c') || reload_model d
       then match name with
            | Some _ => <[name := default [] (_queues d !! name)
                                    ++ [_remote_load_model name]]> (_queues d)
            | None => _queues d
            end
       else _queues d).
Proof.
  intros Hst Hc Hexc. unfold Driver._server_ready, _model_status. unfold_M.
  rewrite Hst. cbv beta iota.
  rewrite (decide_False (P := _COMPLETE = _EMPTY)) by done.
  rewrite (decide_False (P := _COMPLETE = _READY)) by done.
  rewrite (decide_True (P := _COMPLETE = _COMPLETE)) by done.
  rewrite Hc. cbn [_exceptions set_server_cases]. rewrite Hexc. cbv beta iota.
  set (d0 := set_server_cases (<[name:=None]> (_server_cases d)) d).
  (* the case as it is recorded, and the models after the outputs were read *)
  match goal with |- context [?m d0] =>
    match m with context [Driver.get_outputs_loop] =>
      assert (∃ c' w, m d0 = (Ok c', set_models w d0)
                      ∧ ∀ text, exc = Some text → c' = case.set_msg (Some text) c)
        as (c' & w & Hread & Hc')
    end
  end.
  { destruct exc as [text|].
    - exists (case.set_msg (Some text) c), (models d). split; [|by intros ? [= <-]].
      subst d0. by destruct d.
    - destruct (get_outputs_loop_total name (case.outputs c) 0 c d0) as (c' & w & ->).
      by exists c', w. }
  exists c'. rewrite Hread. cbv beta iota.
  set (d1 := set_recorder _ _).
  assert (Hd1 : recorder d1 = recorder d ++ [c'] ∧ _rerun d1 = _rerun d ∧
                _todo d1 = _todo d ∧ _iter d1 = _iter d ∧
                _queues d1 = _queues d ∧ reload_model d1 = reload_model d)
    by done.
  destruct Hd1 as (Hrec & Hrr & Htd & Hit & Hqs & Hrl).
  pose proof (load_model_result name d1) as (Hl1 & Hl2 & Hl3 & Hl4 & Hl5 & Hl6 & Hl7).
  rewrite Hqs in Hl7.
  assert (Hload :
    ∃ r d',
      (let (r0, d'0) :=
         let (r0, d'0) :=
           let (r1, d'1) :=
             let (r1, d'1) := _load_model name d1 in
             match r1 with
             | Ok _ => (Ok (), d'1)
             | Raise e => (Raise e, d'1)
             end in
           match r1 with
           | Ok _ =>
               (Ok (), set_server_states (<[name:=_READY]> (_server_states d'1)) d'1)
           | Raise e => (Raise e, d'1)
           end in
         match r0 with
         | Raise (ServerError _) => (Ok (), d'0)
         | _ => (r0, d'0)
         end in
       match r0 with
       | Ok _ => (Ok true, d'0)
       | Raise e => (Raise e, d'0)
       end) = (r, d') ∧
      recorder d' = recorder d ++ [c'] ∧ _rerun d' = _rerun d ∧
      _todo d' = _todo d ∧ _iter d' = _iter d ∧
      ((∀ s, name = Some s → is_Some (_queues d !! name)) →
       r = Ok true ∧ _server_states d' !! name = Some _READY ∧
       _queues d' = match name with
                    | Some _ => <[name := default [] (_queues d !! name)
                                            ++ [_remote_load_model name]]> (_queues d)
                    | None => _queues d
                    end)).
  { destruct (_load_model name d1) as [[b|e] d2]; cbn [fst snd] in *.
    - do 2 eexists. split; [reflexivity|]. cbn.
      rewrite Hl1, Hl2, Hl3, Hl4. repeat split; try done.
      + by rewrite lookup_insert_eq.
      + by destruct (Hl7 H).
    - destruct e; try (by specialize (Hl6 text));
        (do 2 eexists; split; [reflexivity|]; cbn;
         rewrite Hl1, Hl2, Hl3, Hl4; repeat split; try done;
         by destruct (Hl7 H)). }
  destruct (str_truthy (case.msg c')); cbn [negb orb]; cbv beta iota.
  - destruct Hload as (r & d' & Hrun & Hrest). exists r, d'. split; [|done].
    rewrite <- Hrun. by destruct (_load_model name d1) as [[b|[]] d2].
  - rewrite Hrl. destruct (reload_model d); cbv beta iota.
    + destruct Hload as (r & d' & Hrun & Hrest). exists r, d'. split; [|done].
      rewrite <- Hrun. by destruct (_load_model name d1) as [[b|[]] d2].
    + do 2 eexists. split; [reflexivity|]. cbn. rewrite lookup_insert_eq.
      by repeat split.
Qed.

(** C1: when setting an input of a case raises the [ServerError],
    [_run_case] puts the case on the rerun queue with [retries]
    incremented if [retries < max_retries], and otherwise records it with
    [msg] set to the text of the error; when the execution of the model
    raised an exception, [_server_ready] records the case with [msg] set
    to the text of that exception and leaves the rerun queue as it is. *)
Theorem retry_asymmetry (c : case.t) (name : server) (rerun : bool) (d : driver) :
  let c0 := prepared (max_retries d) rerun c in
  (∀ w text r,
     setup name (case.inputs c) (models d) = (w, Some text) →
     case.retries c0 = Some r →
     ∃ d', _run_case c name rerun d = (Ok tt, d') ∧
           if py_lt (case.retries c0) (case.max_retries c0)
           then _rerun d' = _rerun d ++ [case.set_retries (Some (r + 1)%Z) c0] ∧
                recorder d' = recorder d
           else recorder d' = recorder d ++ [case.set_msg (Some text) c0] ∧
                _rerun d' = _rerun d) ∧
  (∀ text,
     _server_states d !! name = Some _COMPLETE →
     _server_cases d !! name = Some (Some c) →
     _exceptions d !! name = Some (Some text) →
     ∃ r d', _server_ready name d = (r, d') ∧
             recorder d' = recorder d ++ [case.set_msg (Some text) c] ∧
             _rerun d' = _rerun d).
Proof.
  intros c0. split.
  - intros w text r Hsetup Hr.
    destruct (run_case_setup_failed c name rerun d w text r Hsetup Hr)
      as (d' & Hrun & _ & _ & _ & Hq).
    exists d'. split; [done|]. fold c0 in Hq.
    destruct (py_lt _ _); by destruct Hq as (? & ? & _).
  - intros text Hst Hc Hexc.
    destruct (server_ready_complete name d c (Some text) Hst Hc Hexc)
      as (c' & r & d' & Hrun & Hc' & Hrec & Hrr & _).
    exists r, d'. by rewrite <- (Hc' text eq_refl).
Qed.

(** C9: on a first attempt [_run_case] gives the case the [max_retries]
    of the driver when its own is unset or zero, and sets [retries] to 0;
    this is the case the worker holds when the setup succeeded; and when
    the setup fails, a case that came with [max_retries] unset or zero is
    put on the rerun queue once the driver allows a retry. *)
Theorem run_case_first_attempt (c : case.t) (name : server) (d : driver) :
  let c0 := prepared (max_retries d) false c in
  let x := _run_case c name false d in
  case.max_retries c0
  = (if int_truthy (case.max_retries c) then case.max_retries c
     else Some (max_retries d)) ∧
  case.retries c0 = Some 0%Z ∧
  (∀ w, setup name (case.inputs c) (models d) = (w, None) →
        _server_cases x.2 !! name = Some (Some c0)) ∧
  (∀ w text,
     setup name (case.inputs c) (models d) = (w, Some text) →
     int_truthy (case.max_retries c) = false → (0 < max_retries d)%Z →
     x.1 = Ok tt ∧
     _rerun x.2 = _rerun d ++ [case.set_retries (Some 1%Z) c0] ∧
     recorder x.2 = recorder d).
Proof.
  intros c0 x.
  assert (Hmax : case.max_retries c0
                 = if int_truthy (case.max_retries c) then case.max_retries c
                   else Some (max_retries d)).
  { subst c0. unfold prepared. by destruct (int_truthy _). }
  assert (Hret : case.retries c0 = Some 0%Z).
  { subst c0. unfold prepared. by destruct (int_truthy _). }
  repeat split; try done.
  - intros w Hsetup.
    by destruct (run_case_setup_ok c name false d w Hsetup) as (_ & _ & _ & _ & ? & _).
  - destruct (run_case_setup_failed c name false d w text 0 H Hret)
      as (d' & Hrun & _). subst x. by rewrite Hrun.
  - destruct (run_case_setup_failed c name false d w text 0 H Hret)
      as (d' & Hrun & _ & _ & _ & Hq). subst x. rewrite Hrun. fold c0 in Hq.
    rewrite Hmax, H0, Hret in Hq. unfold py_lt in Hq.
    rewrite bool_decide_eq_true_2 in Hq by done. by destruct Hq as (? & _).
  - destruct (run_case_setup_failed c name false d w text 0 H Hret)
      as (d' & Hrun & _ & _ & _ & Hq). subst x. rewrite Hrun. fold c0 in Hq.
    rewrite Hmax, H0, Hret in Hq. unfold py_lt in Hq.
    rewrite bool_decide_eq_true_2 in Hq by done. by destruct Hq as (_ & ? & _).
Qed.

(** C2: a worker that is ready, no stop being requested, runs the first
    case of [todo] if there is one, else the first case of [rerun] if
    there is one, and takes a case from the iterator only when both are
    empty; when the iterator is exhausted too, the worker is no longer
    in use. *)
Theorem server_ready_selects (name : server) (d : driver) :
  _server_states d !! name = Some _READY →
  _stop d = false →
  match _todo d, _rerun d, _iter d with
  | c :: todo', _, _ =>
      _server_ready name d = still_in_use (_run_case c name false (set_todo todo' d)) ∧
      _iter (_server_ready name d).2 = _iter d
  | [], c :: rerun', _ =>
      _server_ready name d = still_in_use (_run_case c name true (set_rerun rerun' d)) ∧
      _iter (_server_ready name d).2 = _iter d
  | [], [], c :: it' =>
      _server_ready name d = still_in_use (_run_case c name false (set_iter it' d)) ∧
      _iter (_server_ready name d).2 = it'
  | [], [], [] => _server_ready name d = (Ok false, d)
  end.
Proof.
  intros Hst Hstop.
  assert (Hstep : ∀ c rerun d1,
            (let (r, d') := _run_case c name rerun d1 in
             match r with
             | Ok _ => (Ok true, d')
             | Raise e => (Raise e, d')
             end) = still_in_use (_run_case c name rerun d1)).
  { intros c rerun d1. unfold still_in_use.
    by destruct (_run_case c name rerun d1) as [[|] ?]. }
  assert (Hready : _server_ready name d
                   = match _todo d, _rerun d, _iter d with
                     | c :: todo', _, _ =>
                         still_in_use (_run_case c name false (set_todo todo' d))
                     | [], c :: rerun', _ =>
                         still_in_use (_run_case c name true (set_rerun rerun' d))
                     | [], [], c :: it' =>
                         still_in_use (_run_case c name false (set_iter it' d))
                     | [], [], [] => (Ok false, d)
                     end).
  { unfold Driver._server_ready. unfold_M. rewrite Hst. cbv beta iota.
    rewrite (decide_False (P := _READY = _EMPTY)) by done.
    rewrite (decide_True (P := _READY = _READY)) by done.
    rewrite Hstop.
    destruct (_todo d) as [|c todo']; [destruct (_rerun d) as [|c rerun'];
      [destruct (_iter d) as [|c it']|]|]; try done; apply Hstep. }
  rewrite Hready.
  destruct (_todo d) as [|c todo']; [destruct (_rerun d) as [|c rerun'];
    [destruct (_iter d) as [|c it']|]|]; try done;
    (split; [done|]); unfold still_in_use; cbn [snd].
  - by destruct (run_case_frame c name false (set_iter it' d)) as [Hi _].
  - by destruct (run_case_frame c name true (set_rerun rerun' d)) as [Hi _].
  - by destruct (run_case_frame c name false (set_todo todo' d)) as [Hi _].
Qed.


End driver.

(** *** The theorems at work on the example drivers *)

#[local] Abbreviation ex_run_case :=
  (_run_case ex_model_set ex_model_run ex_raise_text).
#[local] Abbreviation ex_server_ready :=
  (_server_ready ex_model_set ex_model_get ex_model_run "driver" ex_raise_text).

Lemma retry_asymmetry_witness :
  (∃ d', ex_run_case ex_case_bad None false (ex_driver _READY None None [] [] [])
         = (Ok tt, d') ∧
         _rerun d' = [case.mk [("bad", VNone, py_int 1)] [] (Some 1%Z) (Some 1%Z) None] ∧
         recorder d' = []) ∧
  (∃ r d', ex_server_ready None
             (ex_driver _COMPLETE (Some ex_case_good) (Some "crash") [] [] [])
           = (r, d') ∧
           recorder d' = [case.set_msg (Some "crash") ex_case_good] ∧
           _rerun d' = []).
Proof.
  pose proof (retry_asymmetry ex_model_set ex_model_get ex_model_run "driver"
                ex_raise_text) as H.
  split.
  - destruct (proj1 (H ex_case_bad None false (ex_driver _READY None None [] [] []))
                tt "driver: Exception setting 'bad': boom" 0%Z eq_refl eq_refl)
      as (d' & Hrun & Hq).
    exists d'. split; [exact Hrun|]. exact Hq.
  - destruct (proj2 (H ex_case_good None false
                       (ex_driver _COMPLETE (Some ex_case_good) (Some "crash") [] [] []))
                "crash") as (r & d' & Hrun & Hq); [reflexivity..|].
    exists r, d'. split; [exact Hrun|]. exact Hq.
Defined.

Lemma run_case_first_attempt_witness :
  let x := ex_run_case ex_case_bad None false (ex_driver _READY None None [] [] []) in
  x.1 = Ok tt ∧
  _rerun x.2 = [case.mk [("bad", VNone, py_int 1)] [] (Some 1%Z) (Some 1%Z) None] ∧
  recorder x.2 = [].
Proof.
  intros x.
  apply (proj2 (proj2 (proj2
           (run_case_first_attempt ex_model_set ex_model_run ex_raise_text
              ex_case_bad None (ex_driver _READY None None [] [] []))))
           tt "driver: Exception setting 'bad': boom").
  - reflexivity.
  - reflexivity.
  - reflexivity.
Defined.

Lemma server_ready_selects_witness :
  let d := ex_driver _READY None None [ex_case_good] [ex_case_bad] [ex_case_bad] in
  ex_server_ready None d
  = still_in_use (ex_run_case ex_case_good None false (set_todo [] d)) ∧
  _iter (ex_server_ready None d).2 = [ex_case_bad].
Proof.
  intros d.
  apply (server_ready_selects ex_model_set ex_model_get ex_model_run "driver"
           ex_raise_text None d); reflexivity.
Defined.


End DriverFacts.

(** ** More on dictionaries *)

Module DictMore.
Section dict.
Context {V : Type}.
Implicit Types d : list (string * V).

Lemma get_set d k v name :
  Dict.get (Dict.set d k v) name = if decide (name = k) then Some v else Dict.get d name.
Proof.
  induction d as [|[k' v'] d IH]; simpl.
  - by destruct (decide (name = k)).
  - destruct (decide (k = k')) as [->|Hk]; simpl.
    + by destruct (decide (name = k')).
    + rewrite IH. destruct (decide (name = k')) as [->|]; [|done].
      by rewrite decide_False.
Qed.

Lemma keys_get d name : name ∈ Dict.keys d ↔ is_Some (Dict.get d name).
Proof.
  split; [apply DictFacts.get_is_Some|].
  intros [v Hv]. destruct (decide (name ∈ Dict.keys d)) as [|Hn]; [done|].
  by rewrite DictFacts.get_None in Hv.
Qed.

Lemma get_elem_of d name v : Dict.get d name = Some v → (name, v) ∈ d.
Proof.
  induction d as [|[k' v'] d IH]; simpl; [done|].
  destruct (decide (name = k')) as [->|]; [intros [= ->]; apply list_elem_of_here|].
  intros H. apply list_elem_of_further. by apply IH.
Qed.

Lemma keys_set_subseteq d k v name :
  name ∈ Dict.keys (Dict.set d k v) ↔ name = k ∨ name ∈ Dict.keys d.
Proof.
  rewrite !keys_get, get_set. destruct (decide (name = k)) as [->|Hne].
  - split; [by left|by eexists].
  - split; [by right|]. by intros [|].
Qed.

Lemma length_set d k v :
  length (Dict.set d k v) = if decide (k ∈ Dict.keys d) then length d else S (length d).
Proof.
  destruct (decide (k ∈ Dict.keys d)) as [Hin|Hin].
  - pose proof (DictFacts.keys_set d k v Hin) as Hk. unfold Dict.keys in Hk.
    by rewrite <- (length_fmap fst (Dict.set d k v)), Hk, length_fmap.
  - rewrite DictFacts.set_fresh by done. rewrite length_app. simpl. lia.
Qed.

Lemma NoDup_set d k v : NoDup (Dict.keys d) → NoDup (Dict.keys (Dict.set d k v)).
Proof.
  intros Hnd. destruct (decide (k ∈ Dict.keys d)) as [Hin|Hin].
  - by rewrite DictFacts.keys_set.
  - rewrite DictFacts.set_fresh by done. unfold Dict.keys in *.
    rewrite fmap_app. apply NoDup_app. split; [done|]. split.
    + intros x Hx Hx'. apply list_elem_of_singleton in Hx'. simpl in Hx'. by subst.
    + apply NoDup_singleton.
Qed.

End dict.
End DictMore.

(** ** The Case class: access by name *)

Module CaseOpsFacts.
Import CaseObj CaseOps.

Lemma contains_get {V} (d : list (string * V)) (name : string) :
  contains d name = true ↔ is_Some (Dict.get d name).
Proof. unfold contains. by rewrite bool_decide_eq_true, DictMore.keys_get. Qed.

Lemma contains_false {V} (d : list (string * V)) (name : string) :
  contains d name = false ↔ Dict.get d name = None.
Proof.
  rewrite <- not_true_iff_false, contains_get, <- eq_None_not_Some. done.
Qed.

(** The output part of a case: the outputs mapping, or nothing. *)
Lemma truthy_default {A} (o : option (list A)) :
  (if truthy o then default [] o else []) = default [] o.
Proof. by destruct o as [[|]|]. Qed.

Lemma contains_outputs (c : Case) (name : string) :
  truthy (_outputs c) && contains (default [] (_outputs c)) name
  = contains (default [] (_outputs c)) name.
Proof. by destruct (_outputs c) as [[|]|]. Qed.

(** X1: [len(case)] is the number of items, and of keys, of the case. *)
Theorem len_items_keys (c : Case) :
  ∃ kvs, items None false c = Ok kvs ∧
         keys None false c = Ok kvs.*1 ∧
         values None false c = Ok kvs.*2 ∧
         length kvs = __len__ c.
Proof.
  exists (_inputs c ++ default [] (_outputs c)).
  unfold keys, values. rewrite CaseFacts.items_all. repeat split.
  unfold __len__. rewrite length_app. by destruct (_outputs c).
Qed.

(** X2: [items()] is [items('in')] followed by [items('out')], flattened
    or not; any other [iotype] raises [NameError]. *)
Theorem items_by_iotype (flatten : bool) (c : Case) :
  (∃ ins outs,
     items (Some "in") flatten c = Ok ins ∧
     items (Some "out") flatten c = Ok outs ∧
     items None flatten c = Ok (ins ++ outs)) ∧
  (∀ io, io ≠ "in" → io ≠ "out" →
         ∃ text, items (Some io) flatten c = Raise (NameError text)).
Proof.
  split.
  - exists (get_inputs flatten c),
      (if flatten then flatten_items (default [] (_outputs c))
       else default [] (_outputs c)).
    rewrite CaseFacts.items_all. repeat split.
    unfold items, get_outputs. simpl.
    destruct (_outputs c) as [[|o outs]|]; by destruct flatten.
  - intros io Hin Hout. unfold items. rewrite !decide_False by done. by eexists.
Qed.

(** X3: [name in case] holds exactly for the names [keys()] lists. *)
Theorem contains_keys (name : string) (c : Case) :
  __contains__ name c = true ↔ ∃ ks, keys None false c = Ok ks ∧ name ∈ ks.
Proof.
  unfold __contains__, keys. rewrite CaseFacts.items_all, contains_outputs.
  cbn [get_inputs]. rewrite orb_true_iff. unfold contains.
  rewrite !bool_decide_eq_true. unfold Dict.keys. split.
  - intros H. eexists. split; [done|]. rewrite fmap_app, elem_of_app. done.
  - intros (ks & [= <-] & H). by rewrite fmap_app, elem_of_app in H.
Qed.

(** X4: [case[name]] raises [KeyError] for a name the case does not have;
    it is the input of that name when there is one (the sentinel apart),
    whether or not an output has the name too; else it is the output. *)
Theorem getitem_spec (name : string) (c : Case) :
  (__contains__ name c = false → ∃ text, __getitem__ name c = Raise (KeyError text)) ∧
  (∀ v, Dict.get (_inputs c) name = Some v → v ≠ VMissing →
        __getitem__ name c = Ok v) ∧
  (∀ v, Dict.get (_inputs c) name = None →
        Dict.get (default [] (_outputs c)) name = Some v →
        __getitem__ name c = Ok v).
Proof.
  unfold __getitem__, __contains__. rewrite contains_outputs. repeat split.
  - intros [Hi Ho]%orb_false_iff. apply contains_false in Hi, Ho.
    rewrite Hi, Ho. simpl. destruct (truthy _); by eexists.
  - intros v -> Hv. simpl. by destruct v.
  - intros v -> Ho. simpl. rewrite Ho.
    destruct (_outputs c) as [[|]|]; done.
Qed.

Lemma getitem_spec_witness :
  __getitem__ "x" case_xy_zw = Ok (py_int 1) ∧
  __getitem__ "w" case_xy_zw = Ok (py_int 5) ∧
  ∃ text, __getitem__ "q" case_xy_zw = Raise (KeyError text).
Proof.
  split; [|split].
  - by apply (proj1 (proj2 (getitem_spec "x" case_xy_zw))).
  - by apply (proj2 (proj2 (getitem_spec "w" case_xy_zw))).
  - by apply (proj1 (getitem_spec "q" case_xy_zw)).
Defined.

Lemma getitem_fields (name : string) (c c' : Case) :
  Dict.get (_inputs c') name = Dict.get (_inputs c) name →
  Dict.get (default [] (_outputs c')) name = Dict.get (default [] (_outputs c)) name →
  (truthy (_outputs c') = truthy (_outputs c)) →
  __getitem__ name c' = __getitem__ name c.
Proof. unfold __getitem__. by intros -> -> ->. Qed.

Lemma keys_fields (c c' : Case) :
  Dict.keys (_inputs c') = Dict.keys (_inputs c) →
  Dict.keys (default [] (_outputs c')) = Dict.keys (default [] (_outputs c)) →
  keys None false c' = keys None false c.
Proof.
  unfold keys, Dict.keys. rewrite !CaseFacts.items_all. cbn [get_inputs].
  rewrite !fmap_app. by intros -> ->.
Qed.

Lemma truthy_set (outs : list item) (name : string) (v : value) :
  truthy (Some (Dict.set outs name v)) = true.
Proof. destruct outs as [|[k w] outs]; [done|]. simpl. by destruct (decide _). Qed.

(** X5: [case[name] = v] raises [KeyError] exactly for a name the case
    does not have, and then changes nothing; it never changes the keys;
    the other names read as before; and for a name that is not both an
    input and an output the new value is read back. *)
Theorem setitem_spec (name : string) (v : value) (c : Case) :
  let r := __setitem__ name v c in
  keys None false r.1 = keys None false c ∧
  (r.2 ≠ None ↔ __contains__ name c = false) ∧
  (__contains__ name c = false → r.1 = c) ∧
  (∀ other, other ≠ name → __getitem__ other r.1 = __getitem__ other c) ∧
  (v ≠ VMissing → __contains__ name c = true →
   ¬ (contains (_inputs c) name = true ∧ contains (default [] (_outputs c)) name = true) →
   __getitem__ name r.1 = Ok v).
Proof.
  intros r. subst r. unfold __setitem__, __contains__.
  rewrite contains_outputs.
  destruct (contains (default [] (_outputs c)) name) eqn:Ho;
    [|destruct (contains (_inputs c) name) eqn:Hi]; cbn [fst snd orb].
  - (* the name is an output *)
    assert (Hin : name ∈ Dict.keys (default [] (_outputs c))).
    { by apply bool_decide_eq_true in Ho. }
    repeat split; try done.
    + apply keys_fields; cbn [_inputs _outputs set_outputs default id]; [done|].
      by apply DictFacts.keys_set.
    + by rewrite orb_true_r.
    + by rewrite orb_true_r.
    + intros other Hne.
      apply getitem_fields; cbn [_inputs _outputs set_outputs default id]; try done.
      * rewrite DictMore.get_set. by rewrite decide_False.
      * rewrite truthy_set. by destruct (_outputs c) as [[|]|].
    + intros Hv _ Hboth. unfold __getitem__.
      cbn [_inputs _outputs set_outputs default id]. rewrite truthy_set.
      rewrite DictMore.get_set, decide_True by done.
      destruct (contains (_inputs c) name) eqn:Hi; [by destruct Hboth|].
      apply contains_false in Hi. by rewrite Hi.
  - (* the name is an input only *)
    assert (Hin : name ∈ Dict.keys (_inputs c)).
    { by apply bool_decide_eq_true in Hi. }
    repeat split; try done.
    + apply keys_fields; cbn [_inputs _outputs set_inputs]; [|done].
      by apply DictFacts.keys_set.
    + intros other Hne. apply getitem_fields; cbn [_inputs _outputs set_inputs]; try done.
      rewrite DictMore.get_set. by rewrite decide_False.
    + intros Hv _ _. unfold __getitem__. cbn [_inputs set_inputs].
      rewrite DictMore.get_set, decide_True by done. simpl. by destruct v.
  - by repeat split.
Qed.

Lemma setitem_spec_witness :
  __getitem__ "w" (__setitem__ "w" (py_int 9) case_xy_zw).1 = Ok (py_int 9).
Proof.
  apply (setitem_spec "w" (py_int 9) case_xy_zw); [discriminate|reflexivity|].
  intros [Hi _]. vm_compute in Hi. discriminate Hi.
Defined.

(** X6: for a name that is both an input and an output, [case[name] = v]
    writes the output, while [case[name]] goes on returning the input. *)
Theorem setitem_shadowed (name : string) (v w : value) (c : Case) :
  Dict.get (_inputs c) name = Some w → w ≠ VMissing →
  contains (default [] (_outputs c)) name = true →
  let c' := (__setitem__ name v c).1 in
  __getitem__ name c' = Ok w ∧
  get_output name c' = Ok v ∧
  get_input name c' = Ok w.
Proof.
  intros Hi Hw Ho c'. subst c'. unfold __setitem__. rewrite contains_outputs, Ho.
  cbn [fst]. unfold __getitem__, get_output, get_input.
  cbn [_inputs _outputs set_outputs default id]. rewrite truthy_set, Hi.
  rewrite DictMore.get_set, decide_True by done. repeat split.
  simpl. by destruct w.
Qed.

Lemma setitem_shadowed_witness :
  let c' := (__setitem__ "x" (py_int 9) case_x_in_out).1 in
  __getitem__ "x" c' = Ok (py_int 1) ∧
  get_output "x" c' = Ok (py_int 9) ∧
  get_input "x" c' = Ok (py_int 1).
Proof.
  apply (setitem_shadowed "x" (py_int 9) (py_int 1) case_x_in_out);
    [reflexivity|discriminate|reflexivity].
Defined.

Lemma contains_set {V} (d : list (string * V)) (k name : string) (v : V) :
  contains (Dict.set d k v) name = bool_decide (name = k) || contains d name.
Proof.
  apply eq_true_iff_eq. rewrite orb_true_iff, !contains_get, bool_decide_eq_true.
  rewrite DictMore.get_set. destruct (decide (name = k)).
  - split; [by left|by eexists].
  - split; [by right|by intros [|]].
Qed.

Section adding.
Variable is_legal_name : string → bool.

#[local] Abbreviation add_input := (add_input is_legal_name).
#[local] Abbreviation add_output := (add_output is_legal_name).
#[local] Abbreviation _register_expr := (_register_expr is_legal_name).

Lemma register_expr_len (s : string) (c : Case) :
  __len__ (_register_expr s c) = __len__ c ∧
  ∀ name, __contains__ name (_register_expr s c) = __contains__ name c.
Proof. unfold CaseObj._register_expr. by destruct (negb _). Qed.

(** X7: after [add_input(name, value)] the input reads back, the other
    inputs and the outputs are as before, and the case has one entry more
    exactly when the name was not an input yet. *)
Theorem add_input_spec (name : string) (v : value) (c : Case) :
  let c' := add_input name v c in
  get_input name c' = Ok v ∧
  (∀ other, other ≠ name → get_input other c' = get_input other c) ∧
  _outputs c' = _outputs c ∧
  __len__ c' = (if contains (_inputs c) name then __len__ c else S (__len__ c)).
Proof.
  intros c'. subst c'. unfold CaseObj.add_input.
  destruct (CaseFacts.register_expr_fields is_legal_name name c) as [Hi Ho].
  unfold get_input. cbn [_inputs _outputs set_inputs]. rewrite Hi, Ho.
  repeat split.
  - by rewrite DictMore.get_set, decide_True.
  - intros other Hne. by rewrite DictMore.get_set, decide_False.
  - unfold __len__. cbn [_inputs _outputs set_inputs]. rewrite ?Hi, ?Ho.
    rewrite DictMore.length_set. unfold contains.
    destruct (decide (name ∈ Dict.keys (_inputs c))) as [Hin|Hin].
    + by rewrite bool_decide_eq_true_2.
    + rewrite bool_decide_eq_false_2 by done. by destruct (_outputs c).
Qed.

Lemma add_output_spec' (name : string) (v : value) (c : Case) :
  _inputs (add_output name v c) = _inputs c ∧
  default [] (_outputs (add_output name v c))
  = Dict.set (default [] (_outputs c)) name v.
Proof.
  unfold CaseObj.add_output.
  destruct (CaseFacts.register_expr_fields is_legal_name name c) as [Hi ->].
  by destruct (_outputs c).
Qed.

(** X8: after [add_output(name, value)] the output reads back, the other
    outputs and the inputs are as before, and the case has one entry more
    exactly when the name was not an output yet; an output added by its
    name alone holds the sentinel. *)
Theorem add_output_spec (name : string) (v : value) (c : Case) :
  let c' := add_output name v c in
  get_output name c' = Ok v ∧
  (∀ other, other ≠ name →
     Dict.get (default [] (_outputs c')) other
     = Dict.get (default [] (_outputs c)) other) ∧
  _inputs c' = _inputs c ∧
  __len__ c'
  = (if contains (default [] (_outputs c)) name then __len__ c else S (__len__ c)) ∧
  get_output name (add_outputs is_legal_name [OName name] c) = Ok VMissing.
Proof.
  intros c'. subst c'.
  assert (Hset : ∀ w, add_output name w c
                      = set_outputs (Some (Dict.set (default [] (_outputs c)) name w))
                          (_register_expr name c)).
  { intros w. unfold CaseObj.add_output.
    destruct (CaseFacts.register_expr_fields is_legal_name name c) as [_ ->].
    by destruct (_outputs c). }
  destruct (CaseFacts.register_expr_fields is_legal_name name c) as [Hi Ho].
  assert (Hget : ∀ w, get_output name (add_output name w c) = Ok w).
  { intros w. rewrite Hset. unfold get_output. cbn [_outputs set_outputs default id].
    by rewrite truthy_set, DictMore.get_set, decide_True. }
  repeat split; try apply Hget.
  - intros other Hne. rewrite Hset. cbn [_outputs set_outputs default id].
    by rewrite DictMore.get_set, decide_False.
  - by rewrite Hset.
  - rewrite Hset. unfold __len__. cbn [_inputs _outputs set_outputs]. rewrite ?Hi.
    rewrite DictMore.length_set. unfold contains.
    destruct (decide (name ∈ Dict.keys (default [] (_outputs c)))) as [Hin|Hin].
    + rewrite bool_decide_eq_true_2 by done.
      destruct (_outputs c); [done|]. by apply elem_of_nil in Hin.
    + rewrite bool_decide_eq_false_2 by done. destruct (_outputs c); simpl; lia.
Qed.

(** *** Evaluators *)

Lemma register_expr_exprs (s : string) (c : Case) :
  default [] (_exprs (_register_expr s c))
  = if is_legal_name s then default [] (_exprs c)
    else Dict.set (default [] (_exprs c)) s (mkExpr s).
Proof.
  unfold CaseObj._register_expr. destruct (is_legal_name s); simpl; [done|].
  by destruct (_exprs c).
Qed.

Lemma contains_add_input (k name : string) (v : value) (c : Case) :
  __contains__ name (add_input k v c) = bool_decide (name = k) || __contains__ name c.
Proof.
  unfold __contains__, CaseObj.add_input. cbn [_inputs _outputs set_inputs].
  destruct (CaseFacts.register_expr_fields is_legal_name k c) as [-> ->].
  by rewrite contains_set, orb_assoc.
Qed.

Lemma contains_add_output (k name : string) (v : value) (c : Case) :
  __contains__ name (add_output k v c) = bool_decide (name = k) || __contains__ name c.
Proof.
  unfold __contains__. rewrite !contains_outputs.
  destruct (add_output_spec' k v c) as (-> & ->).
  rewrite contains_set. by destruct (bool_decide _), (contains (_inputs c) name).
Qed.

Lemma registered_step (k name : string) (c c' : Case) :
  exprs_registered is_legal_name c →
  default [] (_exprs c') = default [] (_exprs (_register_expr k c)) →
  __contains__ name c' = bool_decide (name = k) || __contains__ name c →
  Dict.get (default [] (_exprs c')) name
  = if is_legal_name name then None
    else if __contains__ name c' then Some (mkExpr name) else None.
Proof.
  intros Hreg -> ->. rewrite register_expr_exprs.
  destruct (decide (name = k)) as [->|Hne].
  - rewrite bool_decide_eq_true_2 by done. cbn [orb].
    destruct (is_legal_name k) eqn:Hk.
    + by rewrite Hreg, Hk.
    + by rewrite DictMore.get_set, decide_True.
  - rewrite bool_decide_eq_false_2 by done. cbn [orb].
    destruct (is_legal_name k);
      rewrite ?DictMore.get_set, ?decide_False by done; apply Hreg.
Qed.

Lemma registered_add_input (k : string) (v : value) (c : Case) :
  exprs_registered is_legal_name c → exprs_registered is_legal_name (add_input k v c).
Proof.
  intros Hreg name. apply (registered_step k name c); [done|done|].
  apply contains_add_input.
Qed.

Lemma registered_add_output (k : string) (v : value) (c : Case) :
  exprs_registered is_legal_name c → exprs_registered is_legal_name (add_output k v c).
Proof.
  intros Hreg name. apply (registered_step k name c); [done| |].
  - unfold CaseObj.add_output. by destruct (_outputs _).
  - apply contains_add_output.
Qed.

Lemma registered_init (uuid1 : string) (now : Z)
    (inputs : option (list item)) (outputs : option (list out_entry))
    (max_retries retries : option Z) (label : string)
    (case_uuid : option string) (parent_uuid : string) (msg : option string) :
  exprs_registered is_legal_name
    (__init__ is_legal_name uuid1 now inputs outputs max_retries retries label
       case_uuid parent_uuid msg).
Proof.
  unfold __init__.
  set (c0 := mkCase None None [] _ _ _ _ _ _ _ _).
  assert (H0 : exprs_registered is_legal_name c0).
  { intros name. simpl. by destruct (is_legal_name name). }
  assert (Hins : ∀ l c, exprs_registered is_legal_name c →
                        exprs_registered is_legal_name (add_inputs is_legal_name l c)).
  { unfold add_inputs. induction l as [|[k v] l IH]; intros c Hc; [done|].
    simpl. apply IH. by apply registered_add_input. }
  assert (Houts : ∀ l c, exprs_registered is_legal_name c →
                         exprs_registered is_legal_name (add_outputs is_legal_name l c)).
  { unfold add_outputs. induction l as [|e l IH]; intros c Hc; [done|].
    simpl. apply IH. destruct e; by apply registered_add_output. }
  destruct (truthy outputs); [apply Houts|]; destruct (truthy inputs); auto.
Qed.

(** X9: in a case made by the constructor, a name has an evaluator
    exactly when it is a name of the case that is not a legal variable
    name, and the evaluator is the one of that name. *)
Theorem init_exprs_registered (uuid1 : string) (now : Z)
    (inputs : option (list item)) (outputs : option (list out_entry))
    (max_retries retries : option Z) (label : string)
    (case_uuid : option string) (parent_uuid : string) (msg : option string)
    (name : string) :
  let c := __init__ is_legal_name uuid1 now inputs outputs max_retries retries label
             case_uuid parent_uuid msg in
  Dict.get (default [] (_exprs c)) name
  = if is_legal_name name then None
    else if __contains__ name c then Some (mkExpr name) else None.
Proof. apply registered_init. Qed.

(** *** Applying the inputs *)

Section apply_inputs.
Context {S : Type}.
Variable set_case_id : string → S → S.
Variable scope_set : string → value → S → S * option string.
Variable expr_set : ExprEvaluator → value → S → S * option string.

Lemma apply_loop_ext (f g : string → value → S → S * option string) (l : list item) :
  (∀ k v, (k, v) ∈ l → f k v = g k v) →
  ∀ sc, apply_loop f l sc = apply_loop g l sc.
Proof.
  induction l as [|[k v] l IH]; intros Hfg sc; [done|].
  simpl. rewrite (Hfg k v) by apply list_elem_of_here.
  destruct (g k v sc) as [sc' [err|]]; [done|].
  apply IH. intros k' v' Hin. apply Hfg. by apply list_elem_of_further.
Qed.

(** X10: [apply_inputs] stamps the scope with the uuid of the case and
    then sets the inputs in order, up to the first call that raises; in
    a case that keeps its evaluators registered, an input goes through
    [scope.set] when its name is a legal variable name and through its
    evaluator otherwise. *)
Theorem apply_inputs_routes (c : Case) (sc : S) :
  exprs_registered is_legal_name c →
  apply_inputs set_case_id scope_set expr_set c sc
  = apply_loop (λ name val, if is_legal_name name then scope_set name val
                            else expr_set (mkExpr name) val)
               (_inputs c) (set_case_id (uuid c) sc).
Proof.
  intros Hreg. unfold apply_inputs.
  assert (Hin : ∀ k v, (k, v) ∈ _inputs c → __contains__ k c = true).
  { intros k v Hkv. unfold __contains__. apply orb_true_iff. left.
    apply bool_decide_eq_true. apply list_elem_of_fmap. by exists (k, v). }
  destruct (truthy (_exprs c)) eqn:Ht; apply apply_loop_ext; intros k v Hkv.
  - rewrite Hreg, (Hin k v Hkv). by destruct (is_legal_name k).
  - pose proof (Hreg k) as Hk. rewrite (Hin k v Hkv) in Hk.
    destruct (is_legal_name k); [done|].
    by destruct (_exprs c) as [[|]|].
Qed.

End apply_inputs.

(** *** subcase, in general *)

(** The entries of a dict built by successive assignments. *)
Lemma elem_of_build (l : list item) :
  ∀ (d : list item) k v,
    (k, v) ∈ foldl (λ d kv, Dict.set d kv.1 kv.2) d l → (k, v) ∈ d ∨ (k, v) ∈ l.
Proof.
  induction l as [|[k' v'] l IH]; intros d k v Hin; [by left|].
  cbn [foldl fst snd] in Hin. apply IH in Hin as [Hin|Hin].
  - assert (Hset : ∀ d0 : list item, (k, v) ∈ Dict.set d0 k' v' →
                                     (k, v) = (k', v') ∨ (k, v) ∈ d0).
    { clear. induction d0 as [|[k0 v0] d0 IHd]; simpl.
      - intros ->%list_elem_of_singleton. by left.
      - destruct (decide (k' = k0)) as [->|Hne].
        + intros [->|?]%elem_of_cons; [by left|]. right. by apply list_elem_of_further.
        + intros [->|?]%elem_of_cons; [right; apply list_elem_of_here|].
          destruct (IHd H); [by left|]. right. by apply list_elem_of_further. }
    destruct (Hset d Hin) as [->|?]; [right; apply list_elem_of_here|by left].
  - right. by apply list_elem_of_further.
Qed.

Lemma same_meta_refl (c : Case) : same_meta c c.
Proof. by repeat split. Qed.

Lemma same_meta_trans (c1 c2 c3 : Case) :
  same_meta c1 c2 → same_meta c2 c3 → same_meta c1 c3.
Proof.
  unfold same_meta.
  intros (-> & -> & -> & -> & -> & -> & ->) (-> & -> & -> & -> & -> & -> & ->).
  by repeat split.
Qed.

Lemma add_input_meta (k : string) (v : value) (c : Case) :
  same_meta (add_input k v c) c.
Proof.
  unfold same_meta, CaseObj.add_input, CaseObj._register_expr.
  by destruct (negb _).
Qed.

Lemma add_output_meta (k : string) (v : value) (c : Case) :
  same_meta (add_output k v c) c.
Proof.
  unfold same_meta, CaseObj.add_output, CaseObj._register_expr.
  destruct c as [ex o i mr r ms e l u pu ts]. by destruct (negb _), o.
Qed.

Lemma add_inputs_meta (l : list item) (c : Case) :
  same_meta (add_inputs is_legal_name l c) c.
Proof.
  unfold add_inputs. revert c.
  induction l as [|[k v] l IH]; intros c; [apply same_meta_refl|].
  cbn [foldl fst snd]. eapply same_meta_trans; [apply IH|apply add_input_meta].
Qed.

Lemma add_outputs_meta (l : list out_entry) (c : Case) :
  same_meta (add_outputs is_legal_name l c) c.
Proof.
  unfold add_outputs. revert c.
  induction l as [|e l IH]; intros c; [apply same_meta_refl|].
  cbn [foldl]. eapply same_meta_trans; [apply IH|].
  destruct e; apply add_output_meta.
Qed.

#[local] Abbreviation subcase := (subcase is_legal_name).

(** One round of the loop of [subcase]. *)
Lemma subcase_loop_step (c : Case) (name : string) (names : list string)
    (ins outs : list item) :
  (unresolved c name ∧
   ∃ text, subcase_loop c (name :: names) ins outs = Raise (KeyError text)) ∨
  (¬ unresolved c name ∧
   ((∃ v, Dict.get (_inputs c) name = Some v ∧
          subcase_loop c (name :: names) ins outs
          = subcase_loop c names (ins ++ [(name, v)]) outs) ∨
    (∃ v, Dict.get (default [] (_outputs c)) name = Some v ∧
          subcase_loop c (name :: names) ins outs
          = subcase_loop c names ins (outs ++ [(name, v)])))).
Proof.
  cbn [subcase_loop]. unfold unresolved.
  destruct (Dict.get (_inputs c) name) as [v|] eqn:Hi; cbn [default].
  - destruct (is_None v) eqn:Hv.
    + destruct v; try done. cbn [negb].
      destruct (Dict.get (default [] (_outputs c)) name) as [o|] eqn:Ho.
      * right. split; [by intros [_ ?]|]. right. exists o. split; [done|].
        destruct (_outputs c) as [[|]|]; done.
      * left. split; [split; [by intros ? [= <-]|done]|].
        destruct (truthy (_outputs c)); by eexists.
    + right. split.
      * intros [Hn _]. specialize (Hn v eq_refl). by subst.
      * left. exists v. split; [done|]. by destruct v.
  - cbn [is_None negb].
    destruct (Dict.get (default [] (_outputs c)) name) as [o|] eqn:Ho.
    + right. split; [by intros [_ ?]|]. right. exists o. split; [done|].
      destruct (_outputs c) as [[|]|]; done.
    + left. split; [done|]. destruct (truthy (_outputs c)); by eexists.
Qed.

Lemma subcase_loop_fails (c : Case) (names : list string) :
  ∀ ins outs,
    (∃ text, subcase_loop c names ins outs = Raise (KeyError text))
    ↔ ∃ name, name ∈ names ∧ unresolved c name.
Proof.
  induction names as [|name names IH]; intros ins outs.
  - split; [by intros [? ?]|]. intros (? & H & _). by apply elem_of_nil in H.
  - destruct (subcase_loop_step c name names ins outs)
      as [[Hun Hraise]|[Hres [(v & _ & ->)|(v & _ & ->)]]].
    + split; [|done]. intros _. exists name. split; [apply list_elem_of_here|done].
    + rewrite IH. split.
      * intros (n & Hn & Hu). exists n. split; [by apply list_elem_of_further|done].
      * intros (n & [->|Hn]%elem_of_cons & Hu); [done|]. by exists n.
    + rewrite IH. split.
      * intros (n & Hn & Hu). exists n. split; [by apply list_elem_of_further|done].
      * intros (n & [->|Hn]%elem_of_cons & Hu); [done|]. by exists n.
Qed.

Lemma subcase_loop_result (c : Case) (names : list string) :
  ∀ ins outs ins' outs',
    subcase_loop c names ins outs = Ok (ins', outs') →
    (∀ k v, (k, v) ∈ ins' →
            (k, v) ∈ ins ∨ (k ∈ names ∧ Dict.get (_inputs c) k = Some v)) ∧
    (∀ k v, (k, v) ∈ outs' →
            (k, v) ∈ outs ∨
            (k ∈ names ∧ Dict.get (default [] (_outputs c)) k = Some v)).
Proof.
  induction names as [|name names IH]; intros ins outs ins' outs' Hloop.
  - injection Hloop as <- <-. split; by left.
  - destruct (subcase_loop_step c name names ins outs)
      as [[_ [text Hraise]]|[_ [(v & Hv & Heq)|(v & Hv & Heq)]]];
      rewrite ?Hraise, ?Heq in Hloop; [done| |];
      destruct (IH _ _ _ _ Hloop) as [Hi Ho]; split; intros k w Hkw.
    + destruct (Hi k w Hkw) as [Hin|[? ?]].
      * apply elem_of_app in Hin as [?|Heq']; [by left|].
        apply list_elem_of_singleton in Heq'. injection Heq' as -> ->.
        right. split; [apply list_elem_of_here|done].
      * right. split; [by apply list_elem_of_further|done].
    + destruct (Ho k w Hkw) as [?|[? ?]]; [by left|].
      right. split; [by apply list_elem_of_further|done].
    + destruct (Hi k w Hkw) as [?|[? ?]]; [by left|].
      right. split; [by apply list_elem_of_further|done].
    + destruct (Ho k w Hkw) as [Hin|[? ?]].
      * apply elem_of_app in Hin as [?|Heq']; [by left|].
        apply list_elem_of_singleton in Heq'. injection Heq' as -> ->.
        right. split; [apply list_elem_of_here|done].
      * right. split; [by apply list_elem_of_further|done].
Qed.

Lemma subcase_loop_KeyError (c : Case) (names : list string) :
  ∀ ins outs e,
    subcase_loop c names ins outs = Raise e → ∃ text, e = KeyError text.
Proof.
  induction names as [|name names IH]; intros ins outs e Hloop; [done|].
  destruct (subcase_loop_step c name names ins outs)
    as [[_ [text Hraise]]|[_ [(v & _ & Heq)|(v & _ & Heq)]]].
  - rewrite Hraise in Hloop. injection Hloop as <-. by exists text.
  - rewrite Heq in Hloop. by apply IH in Hloop.
  - rewrite Heq in Hloop. by apply IH in Hloop.
Qed.

(** X11: [subcase(names)] raises, and then a [KeyError], exactly when
    some requested name is neither an input whose value is other than
    [None] nor an output. *)
Theorem subcase_fails_iff (uuid1 : string) (now : Z) (names : list string) (c : Case) :
  ((∃ e, subcase uuid1 now names c = Raise e)
   ↔ ∃ name, name ∈ names ∧ unresolved c name) ∧
  (∀ e, subcase uuid1 now names c = Raise e → ∃ text, e = KeyError text).
Proof.
  unfold CaseObj.subcase.
  pose proof (subcase_loop_fails c names [] []) as Hf.
  pose proof (subcase_loop_KeyError c names [] []) as Hk.
  destruct (subcase_loop c names [] []) as [[ins outs]|e] eqn:Hloop.
  - split; [|done]. rewrite <- Hf. split; by intros [? ?].
  - destruct (Hk e eq_refl) as [text ->]. split.
    + rewrite <- Hf. split; intros _; by eexists.
    + intros e [= <-]. by exists text.
Qed.

(** X12: the case [subcase(names)] returns has the [parent_uuid],
    [max_retries] and [timestamp] of the case it was taken from, a uuid
    of its own, and neither its label, its [msg] nor its [retries]; its
    entries are entries of that case under requested names. *)
Theorem subcase_result (uuid1 : string) (now : Z) (names : list string) (c sc : Case) :
  subcase uuid1 now names c = Ok sc →
  parent_uuid sc = parent_uuid c ∧ max_retries sc = max_retries c ∧
  timestamp sc = timestamp c ∧
  uuid sc = uuid1 ∧ label sc = "" ∧ msg sc = None ∧ retries sc = None ∧
  (∀ k v, (k, v) ∈ _inputs sc → k ∈ names ∧ Dict.get (_inputs c) k = Some v) ∧
  (∀ k v, (k, v) ∈ default [] (_outputs sc) →
          k ∈ names ∧ Dict.get (default [] (_outputs c)) k = Some v).
Proof.
  unfold CaseObj.subcase.
  destruct (subcase_loop c names [] []) as [[ins outs]|e] eqn:Hloop; [|done].
  intros [= <-].
  destruct (subcase_loop_result c names [] [] ins outs Hloop) as [Hi Ho].
  unfold __init__.
  set (c0 := mkCase None None [] _ _ _ _ _ _ _ _).
  set (c1 := if truthy (Some ins) then _ else c0).
  set (c2 := if truthy (Some _) then _ else c1).
  assert (H1 : same_meta c1 c0).
  { subst c1. destruct (truthy (Some ins)); [apply add_inputs_meta|apply same_meta_refl]. }
  assert (H2 : same_meta c2 c1).
  { subst c2. destruct (truthy (Some (map _ outs)));
      [apply add_outputs_meta|apply same_meta_refl]. }
  destruct H1 as (E1 & E2 & E3 & E4 & E5 & E6 & E7), H2 as (F1 & F2 & F3 & F4 & F5 & F6 & F7).
  cbn [parent_uuid max_retries timestamp uuid label msg retries _inputs _outputs
       set_timestamp].
  rewrite ?F1, ?F2, ?F3, ?F4, ?F5, ?F6, ?F7, ?E1, ?E2, ?E3, ?E4, ?E5, ?E6, ?E7.
  assert (Ho1 : _outputs c1 = None).
  { subst c1. destruct (truthy (Some ins)); [|done]. cbn [default id].
    by destruct (CaseFacts.add_inputs_fields is_legal_name ins c0) as [_ ->]. }
  do 7 (split; [done|]). split.
  - (* inputs *)
    intros k v Hkv.
    assert (Hin2 : _inputs c2 = _inputs c1).
    { subst c2. destruct (truthy (Some (map _ outs))); [|done]. cbn [default id].
      by destruct (CaseFacts.add_outputs_fields is_legal_name outs c1) as [-> _]. }
    rewrite Hin2 in Hkv.
    assert (Hsub : (k, v) ∈ ins).
    { subst c1. destruct (truthy (Some ins)); [|by apply elem_of_nil in Hkv].
      destruct (CaseFacts.add_inputs_fields is_legal_name ins c0) as [Hi1 _].
      cbn [default id] in Hkv. rewrite Hi1 in Hkv.
      apply elem_of_build in Hkv as [Hkv|Hkv]; [by apply elem_of_nil in Hkv|done]. }
    destruct (Hi k v Hsub) as [Hn|?]; [by apply elem_of_nil in Hn|done].
  - (* outputs *)
    intros k v Hkv.
    assert (Hsub : (k, v) ∈ outs).
    { subst c2. destruct outs as [|o outs'].
      - cbn [truthy map] in Hkv.
        rewrite Ho1 in Hkv. by apply elem_of_nil in Hkv.
      - cbn [truthy default id map] in Hkv.
        destruct (CaseFacts.add_outputs_fields is_legal_name (o :: outs') c1) as [_ Ho2].
        cbn [map] in Ho2. rewrite Ho2 in Hkv. cbn [default id] in Hkv.
        apply elem_of_build in Hkv as [Hkv|Hkv]; [|done].
        rewrite Ho1 in Hkv. by apply elem_of_nil in Hkv. }
    destruct (Ho k v Hsub) as [Hn|?]; [by apply elem_of_nil in Hn|done].
Qed.

End adding.

Lemma subcase_result_witness :
  ∃ sc, CaseObj.subcase legal_all "uuid-s" 1 ["w"; "x"] case_xy_zw = Ok sc ∧
        parent_uuid sc = "parent" ∧ timestamp sc = 0%Z ∧ label sc = "".
Proof.
  destruct (CaseObj.subcase legal_all "uuid-s" 1 ["w"; "x"] case_xy_zw)
    as [sc|e] eqn:Hsub; [|by vm_compute in Hsub].
  exists sc. split; [done|].
  destruct (subcase_result legal_all _ _ _ _ _ Hsub) as (H1 & _ & H3 & _ & H5 & _).
  by rewrite H1, H3, H5.
Defined.

(** *** Equality, in general *)

Lemma value_eqb_eq (v w : value) : value_eqb v w = true ↔ v = w.
Proof.
  split; [|intros ->; apply CaseFacts.value_eqb_refl].
  revert w. induction v as [| |ty bases p|sub root xs IH] using value_induction;
    intros [| |ty' bases' p'|sub' root' ys]; simpl; try done.
  - rewrite !andb_true_iff, !bool_decide_eq_true. by intros [[-> ->] ->].
  - rewrite !andb_true_iff, !bool_decide_eq_true. intros [[-> ->] Hall]. f_equal.
    revert ys Hall. induction IH as [|x xs Hx _ IHxs]; intros [|y ys]; try done.
    rewrite andb_true_iff. intros [Hxy Hall]. f_equal; [by apply Hx|by apply IHxs].
Qed.

Lemma eq_loop_eq (xs ys : list item) :
  length xs = length ys → eq_loop (zip xs ys) = true ↔ xs = ys.
Proof.
  revert ys. induction xs as [|[k v] xs IH]; intros [|[k' v'] ys]; try done.
  simpl. intros [= Hlen]. specialize (IH ys Hlen).
  destruct (bool_decide (k = k')) eqn:Hk; simpl.
  - apply bool_decide_eq_true in Hk as ->.
    destruct (value_eqb v v') eqn:Hv; simpl.
    + apply value_eqb_eq in Hv as ->. rewrite IH. split; [by intros ->|by intros [= ->]].
    + split; [done|]. intros [= -> ->]. by rewrite CaseFacts.value_eqb_refl in Hv.
  - apply bool_decide_eq_false in Hk. split; [done|]. by intros [= -> _].
Qed.

Lemma flatten_items_plain (d : list item) :
  Forall (λ kv : item, plain kv.2) d → flatten_items d = d.
Proof.
  unfold flatten_items. intros Hd.
  enough (∀ ret, foldl (λ ret kv, ret ++ Flatten.flatten_obj kv.1 kv.2) ret d = ret ++ d)
    as H by apply (H []).
  induction Hd as [|[k v] d Hv _ IH]; intros ret; cbn [foldl fst snd] in *.
  - by rewrite app_nil_r.
  - rewrite IH, (Hv k). by rewrite <- (assoc_L (++)).
Qed.

Lemma int_or_str_plain (v : value) : int_or_str v → plain v.
Proof. intros [[n ->]|[t ->]] name; reflexivity. Qed.

(** X14: for two cases whose values are all [int] or [str] objects,
    [a == b] holds exactly when [msg], [label] and [items()] agree; the
    other fields (uuid, parent, timestamp, retry counts) play no part. *)
Theorem eq_int_str_iff (a b : Case) :
  int_or_str_case a → int_or_str_case b →
  __eq__ a b = true
  ↔ msg a = msg b ∧ label a = label b ∧ items None false a = items None false b.
Proof.
  unfold int_or_str_case. intros [Hai Hao]%Forall_app [Hbi Hbo]%Forall_app.
  assert (Hplain : ∀ d : list item,
            Forall (λ kv : item, int_or_str kv.2) d → Forall (λ kv : item, plain kv.2) d).
  { intros d Hd. eapply Forall_impl; [exact Hd|]. intros kv. apply int_or_str_plain. }
  apply Hplain in Hai, Hao, Hbi, Hbo.
  unfold __eq__. rewrite !CaseFacts.items_all. cbn [get_inputs].
  rewrite !flatten_items_plain by done.
  assert (Hlen : ∀ c, __len__ c = length (_inputs c ++ default [] (_outputs c))).
  { intros c. unfold __len__. rewrite length_app. by destruct (_outputs c). }
  rewrite !Hlen.
  destruct (bool_decide (msg a = msg b)) eqn:Hm; cbn [negb orb].
  2: { apply bool_decide_eq_false in Hm. split; [done|]. by intros [? _]. }
  apply bool_decide_eq_true in Hm.
  destruct (bool_decide (label a = label b)) eqn:Hl; cbn [negb orb].
  2: { apply bool_decide_eq_false in Hl. split; [done|]. by intros (_ & ? & _). }
  apply bool_decide_eq_true in Hl.
  destruct (bool_decide (length _ = length _)) eqn:Hn; cbn [negb].
  - apply bool_decide_eq_true in Hn. rewrite (eq_loop_eq _ _ Hn).
    split; [by intros ->|]. by intros (_ & _ & [= ->]).
  - apply bool_decide_eq_false in Hn. split; [done|].
    intros (_ & _ & [= Heq]). by rewrite Heq in Hn.
Qed.

Lemma eq_int_str_iff_witness :
  __eq__ case_ab (set_uuid "other" case_ab) = true
  ↔ msg case_ab = msg (set_uuid "other" case_ab) ∧
    label case_ab = label (set_uuid "other" case_ab) ∧
    items None false case_ab = items None false (set_uuid "other" case_ab).
Proof.
  apply (eq_int_str_iff case_ab (set_uuid "other" case_ab)).
  - change (Forall (λ kv : item, int_or_str kv.2)
              [("a[0]", py_int 1); ("b", py_int 2)]).
    apply ListDef.Forall_cons; [left; by eexists|].
    apply ListDef.Forall_cons; [left; by eexists|]. apply ListDef.Forall_nil.
  - change (Forall (λ kv : item, int_or_str kv.2)
              [("a[0]", py_int 1); ("b", py_int 2)]).
    apply ListDef.Forall_cons; [left; by eexists|].
    apply ListDef.Forall_cons; [left; by eexists|]. apply ListDef.Forall_nil.
Defined.

Lemma apply_inputs_routes_witness :
  apply_inputs ex_set_case_id ex_scope_set ex_expr_set case_ab []
  = ([("_case_id", py_str "uuid-f"); ("a[0]", py_int 1); ("b", py_int 2)], None).
Proof.
  rewrite (apply_inputs_routes ex_legal ex_set_case_id ex_scope_set ex_expr_set case_ab []).
  - reflexivity.
  - apply registered_init.
Defined.

End CaseOpsFacts.

(** ** The round trip through [subcase] *)

Module RoundTrip.
Import CaseObj CaseOps.

Lemma get_Permutation (d d' : list item) (name : string) :
  NoDup (Dict.keys d) → d ≡ₚ d' → Dict.get d' name = Dict.get d name.
Proof.
  intros Hnd Hp.
  assert (Hnd' : NoDup (Dict.keys d')).
  { unfold Dict.keys in *. by rewrite <- Hp. }
  destruct (Dict.get d name) as [v|] eqn:Hget.
  - apply DictFacts.get_Some; [done|]. rewrite <- Hp. by apply DictMore.get_elem_of.
  - apply DictFacts.get_None. intros Hin. unfold Dict.keys in Hin. rewrite <- Hp in Hin.
    apply DictMore.keys_get in Hin as [v Hv]. congruence.
Qed.

Lemma omap_nothing {A B : Type} (f : A → option B) (l : list A) :
  Forall (λ x, f x = None) l → omap f l = [].
Proof.
  induction 1 as [|x l Hx _ IH]; [done|]. cbn [omap list_omap]. by rewrite Hx.
Qed.

Lemma omap_names {A : Type} (f : string → option (string * A))
    (l : list (string * A)) :
  Forall (λ kv, f kv.1 = Some kv) l → omap f l.*1 = l.
Proof.
  induction 1 as [|[k v] l Hx _ IH]; [done|].
  cbn [fmap list_fmap omap list_omap fst]. cbn [fst] in Hx. rewrite Hx.
  f_equal. exact IH.
Qed.

Lemma omap_keys {A : Type} (f : string → option (string * A)) (l : list string) :
  (∀ k kv, f k = Some kv → kv.1 = k) → NoDup l → NoDup (omap f l).*1.
Proof.
  intros Hf. induction 1 as [|k l Hk Hnd IH]; [constructor|].
  cbn [omap list_omap]. destruct (f k) as [kv|] eqn:Hfk; [|done].
  cbn [fmap list_fmap]. constructor; [|done].
  rewrite (Hf k kv Hfk). intros Hin. apply Hk.
  apply list_elem_of_fmap in Hin as (kv' & -> & Hin').
  apply list_elem_of_omap in Hin' as (k' & Hk' & Hfk').
  by rewrite (Hf k' kv' Hfk').
Qed.

Section subcase.
Variable is_legal_name : string → bool.

#[local] Abbreviation subcase := (subcase is_legal_name).

(** On names of the case, the loop of [subcase] sorts the names into
    inputs and outputs. *)
Lemma subcase_loop_sorts (c : Case) (names : list string) :
  Forall (λ kv : item, kv.2 ≠ VNone) (_inputs c) →
  ∀ ins outs,
    (∀ name, name ∈ names →
             name ∈ Dict.keys (_inputs c) ∨ name ∈ Dict.keys (default [] (_outputs c))) →
    subcase_loop c names ins outs
    = Ok (ins ++ omap (as_input c) names, outs ++ omap (as_output c) names).
Proof.
  intros Hv. induction names as [|name names IH]; intros ins outs Hnames.
  - by rewrite !app_nil_r.
  - destruct (Dict.get (_inputs c) name) as [v|] eqn:Hget.
    + assert (Hai : as_input c name = Some (name, v))
        by (unfold as_input; by rewrite Hget).
      assert (Hao : as_output c name = None) by (unfold as_output; by rewrite Hget).
      assert (Hnone : is_None v = false).
      { apply DictMore.get_elem_of in Hget.
        pose proof (proj1 (Forall_forall _ _) Hv (name, v) Hget) as Hne.
        by destruct v. }
      cbn [subcase_loop omap list_omap]. rewrite Hai, Hao, Hget.
      cbn [default from_option id]. cbv zeta. rewrite Hnone. cbn [negb].
      rewrite IH by (intros n Hn; apply Hnames; by apply list_elem_of_further).
      by rewrite <- (assoc_L (++)).
    + destruct (Hnames name) as [Hin|Hin]; [apply list_elem_of_here| |].
      { apply DictMore.keys_get in Hin as [v Hv']. congruence. }
      assert (Ht : truthy (_outputs c) = true).
      { destruct (_outputs c) as [[|]|]; try done; by apply elem_of_nil in Hin. }
      apply DictMore.keys_get in Hin as [o Ho].
      assert (Hai : as_input c name = None) by (unfold as_input; by rewrite Hget).
      assert (Hao : as_output c name = Some (name, o))
        by (unfold as_output; by rewrite Hget, Ho).
      cbn [subcase_loop omap list_omap]. rewrite Hai, Hao, Hget.
      cbn [default from_option id is_None negb]. cbv zeta. cbn [is_None negb].
      rewrite Ht, Ho.
      rewrite IH by (intros n Hn; apply Hnames; by apply list_elem_of_further).
      by rewrite <- (assoc_L (++)).
Qed.

(** C7, amended: for a case whose input values are not [None] and whose
    input and output names are disjoint, [subcase] of the names that
    [keys()] lists, in whatever order they are listed, succeeds and holds
    the inputs and the outputs of the case, each name with its value
    (sentinels included); its [items()] are those of the case up to the
    order of the entries. *)
Theorem subcase_keys_roundtrip (uuid1 : string) (now : Z) (c : Case)
    (ks names : list string) :
  NoDup (Dict.keys (_inputs c)) →
  NoDup (Dict.keys (default [] (_outputs c))) →
  Forall (λ kv, kv.2 ≠ VNone) (_inputs c) →
  (∀ name, name ∈ Dict.keys (_inputs c) →
           name ∉ Dict.keys (default [] (_outputs c))) →
  keys None false c = Ok ks → names ≡ₚ ks →
  ∃ sc xs ys,
    subcase uuid1 now names c = Ok sc ∧
    items None false sc = Ok xs ∧ items None false c = Ok ys ∧ xs ≡ₚ ys ∧
    (∀ name, Dict.get (_inputs sc) name = Dict.get (_inputs c) name) ∧
    (∀ name, Dict.get (default [] (_outputs sc)) name
             = Dict.get (default [] (_outputs c)) name).
Proof.
  intros Hni Hno Hv Hdisj Hks Hperm.
  unfold keys in Hks. rewrite CaseFacts.items_all in Hks. cbn [get_inputs] in Hks.
  injection Hks as <-. rewrite fmap_app in Hperm.
  set (I := _inputs c) in *. set (O := default [] (_outputs c)) in *.
  (* what the loop collects *)
  assert (Hin_I : Forall (λ kv : item, as_input c kv.1 = Some kv ∧ as_output c kv.1 = None) I).
  { apply Forall_forall. intros [k v] Hkv. unfold as_input, as_output. cbn [fst].
    fold I. by rewrite (DictFacts.get_Some I k v Hni Hkv). }
  assert (Hin_O : Forall (λ kv : item, as_input c kv.1 = None ∧ as_output c kv.1 = Some kv) O).
  { apply Forall_forall. intros [k v] Hkv. unfold as_input, as_output. cbn [fst].
    fold I O. rewrite (DictFacts.get_Some O k v Hno Hkv).
    rewrite DictFacts.get_None; [done|]. intros Hk. apply (Hdisj k Hk).
    apply list_elem_of_fmap. by exists (k, v). }
  assert (Hins : omap (as_input c) names ≡ₚ I).
  { rewrite Hperm, omap_app.
    rewrite (omap_names (as_input c) I) by (eapply Forall_impl; [exact Hin_I|]; by intros ? [? ?]).
    rewrite (omap_nothing (as_input c) O.*1); [by rewrite app_nil_r|].
    apply Forall_fmap. eapply Forall_impl; [exact Hin_O|]. by intros ? [? ?]. }
  assert (Houts : omap (as_output c) names ≡ₚ O).
  { rewrite Hperm, omap_app.
    rewrite (omap_names (as_output c) O) by (eapply Forall_impl; [exact Hin_O|]; by intros ? [? ?]).
    rewrite (omap_nothing (as_output c) I.*1); [done|].
    apply Forall_fmap. eapply Forall_impl; [exact Hin_I|]. by intros ? [? ?]. }
  assert (Hnames : NoDup names).
  { rewrite Hperm. apply NoDup_app. split; [done|]. split; [|done].
    intros name Hi Ho. by apply (Hdisj name). }
  assert (Hki : NoDup (Dict.keys (omap (as_input c) names))).
  { apply omap_keys; [|done]. intros k kv. unfold as_input.
    destruct (Dict.get (_inputs c) k); [|done]. by intros [= <-]. }
  assert (Hko : NoDup (Dict.keys (omap (as_output c) names))).
  { apply omap_keys; [|done]. intros k kv. unfold as_output.
    destruct (Dict.get (_inputs c) k); [done|].
    destruct (Dict.get (default [] (_outputs c)) k); [|done]. by intros [= <-]. }
  (* the case built from it *)
  unfold CaseObj.subcase. rewrite subcase_loop_sorts; [|done|].
  2: { intros name Hname. rewrite Hperm in Hname. by apply elem_of_app in Hname. }
  cbn [app].
  set (ins := omap (as_input c) names) in *. set (outs := omap (as_output c) names) in *.
  assert (Hfields :
    let sc := __init__ is_legal_name uuid1 now (Some ins)
                (Some (map (λ nv : item, OPair nv.1 nv.2) outs))
                (max_retries c) None "" None (parent_uuid c) None in
    _inputs sc = ins ∧ default [] (_outputs sc) = outs).
  { unfold __init__.
    set (c0 := mkCase None None [] _ _ _ _ _ _ _ _).
    assert (H1 : ∀ c1, _inputs c1 = [] →
              _inputs (if truthy (Some ins) then add_inputs is_legal_name ins c1 else c1)
              = ins
              ∧ _outputs (if truthy (Some ins) then add_inputs is_legal_name ins c1 else c1)
                = _outputs c1).
    { intros c1 Hc1. clearbody ins. destruct ins as [|i ins']; [done|]. cbn [truthy].
      destruct (CaseFacts.add_inputs_fields is_legal_name (i :: ins') c1) as [-> ->].
      split; [|done]. rewrite Hc1. by apply (DictFacts.build_from (i :: ins') []). }
    destruct (H1 c0 eq_refl) as [Hi1 Ho1]. cbn [default] in *.
    set (c1 := if truthy (Some ins) then _ else c0) in *.
    clearbody outs. destruct outs as [|o outs'].
    - cbn [map truthy]. by rewrite Hi1, Ho1.
    - cbn [map truthy].
      pose proof (CaseFacts.add_outputs_fields is_legal_name (o :: outs') c1) as [Hi2 Ho2].
      cbn [map] in Hi2, Ho2. cbn [default id].
      rewrite Hi2, Ho2, Hi1, Ho1. cbn [default _outputs c0 id].
      by rewrite (DictFacts.build_from (o :: outs') []). }
  destruct Hfields as [Hfi Hfo].
  eexists _, _, _. split; [reflexivity|].
  rewrite !CaseFacts.items_all. cbn [get_inputs _inputs _outputs set_timestamp].
  split; [reflexivity|]. split; [reflexivity|].
  rewrite Hfi, Hfo. fold I O. split; [by rewrite Hins, Houts|].
  split; intros name.
  - apply (get_Permutation I ins name Hni). by symmetry.
  - apply (get_Permutation O outs name Hno). by symmetry.
Qed.

End subcase.

Lemma subcase_keys_roundtrip_witness :
  ∃ sc xs ys,
    subcase legal_all "uuid-s" 1 ["w"; "y"; "z"; "x"] case_xy_zw = Ok sc ∧
    items None false sc = Ok xs ∧ items None false case_xy_zw = Ok ys ∧ xs ≡ₚ ys ∧
    (∀ name, Dict.get (_inputs sc) name = Dict.get (_inputs case_xy_zw) name) ∧
    (∀ name, Dict.get (default [] (_outputs sc)) name
             = Dict.get (default [] (_outputs case_xy_zw)) name).
Proof.
  apply (subcase_keys_roundtrip legal_all "uuid-s" 1 case_xy_zw ["x"; "y"; "z"; "w"]).
  - decide_by_computation.
  - decide_by_computation.
  - repeat constructor; discriminate.
  - intros name Hin Hout. vm_compute in Hin, Hout.
    repeat (apply elem_of_cons in Hin as [->|Hin];
            [repeat (apply elem_of_cons in Hout as [Hout|Hout]; [discriminate|]);
             by apply elem_of_nil in Hout|]).
    by apply elem_of_nil in Hin.
  - reflexivity.
  - solve_Permutation.
Defined.

(** C7 fails at [Case(inputs=[('x', 1)], outputs=['x'])]: both
    occurrences of [x] in [keys()] are resolved as the input, and the
    subcase has one item where the case has two, so the items differ in
    whatever order they are listed. *)
Lemma subcase_keys_counterexample :
  ∃ ks sc xs ys,
    keys None false case_x_in_out = Ok ks ∧
    subcase legal_all "uuid-s" 1 ks case_x_in_out = Ok sc ∧
    items None false sc = Ok xs ∧ items None false case_x_in_out = Ok ys ∧
    ¬ xs ≡ₚ ys.
Proof.
  eexists _, _, _, _. split; [reflexivity|]. split; [reflexivity|].
  split; [reflexivity|]. split; [reflexivity|].
  intros Hp. apply Permutation_length in Hp. vm_compute in Hp. discriminate.
Qed.

End RoundTrip.

(** ** Flattening, in general *)

Module FlattenMore.
Import Flatten.

Lemma append_nil_r (s : string) : s +:+ "" = s.
Proof.
  induction s as [|ch s IH]; [done|].
  change (String ch (s +:+ "") = String ch s). by rewrite IH.
Qed.

Lemma children_leaves_elem (lst : list value) :
  ∀ i p v, (p, v) ∈ children_leaves i lst →
           ∃ e q, e ∈ lst ∧ (q, v) ∈ leaves e.
Proof.
  induction lst as [|e lst IH]; intros i p v Hin; simpl in Hin.
  - by apply elem_of_nil in Hin.
  - apply elem_of_app in Hin as [Hin|Hin].
    + apply list_elem_of_fmap in Hin as ([q w] & [= -> ->] & Hq).
      exists e, q. split; [apply list_elem_of_here|done].
    + destruct (IH _ _ _ Hin) as (e' & q & He' & Hq).
      exists e', q. split; [by apply list_elem_of_further|done].
Qed.

(** A leaf is never a list, a tuple or an array. *)
Lemma leaves_not_sequence (x : value) :
  ∀ p v, (p, v) ∈ leaves x → isinstance v [Q q_tuple; Q q_list; Q q_array] = false.
Proof.
  induction x as [| |ty bases pl|sub root xs IH] using value_induction; intros p v Hin.
  - apply list_elem_of_singleton in Hin as [= _ ->]. by rewrite FlattenFacts.isinstance_sequence.
  - apply list_elem_of_singleton in Hin as [= _ ->]. by rewrite FlattenFacts.isinstance_sequence.
  - apply list_elem_of_singleton in Hin as [= _ ->]. by rewrite FlattenFacts.isinstance_sequence.
  - rewrite FlattenFacts.leaves_seq in Hin.
    destruct (children_leaves_elem xs 0 p v Hin) as (e & q & He & Hq).
    by apply (proj1 (Forall_forall _ _) IH e He q v).
Qed.

Lemma walk_mro_atoms (name : string) (obj : value) (cls : list aclass) :
  walk_mro (map K cls) name obj = [] ∨ walk_mro (map K cls) name obj = [(name, obj)].
Proof.
  induction cls as [|a cls IH]; [by left|].
  destruct a; simpl; auto.
Qed.

(** X15: every pair [flatten_obj name obj] returns is filed under a name
    that starts with [name], and its value is never a list, a tuple or an
    array: sequences are flattened all the way down. *)
Theorem flatten_obj_leaves (name : string) (obj : value) (k : string) (v : value) :
  (k, v) ∈ flatten_obj name obj →
  isinstance v [Q q_tuple; Q q_list; Q q_array] = false ∧
  ∃ suffix, k = name +:+ suffix.
Proof.
  destruct obj as [| |ty bases p|sub root xs].
  - intros Hin. by apply elem_of_nil in Hin.
  - intros Hin. by apply elem_of_nil in Hin.
  - intros Hin.
    assert (Hone : (k, v) = (name, VObj ty bases p)).
    { unfold flatten_obj in Hin. cbn [getmro_type hd tail] in Hin.
      destruct (flatteners_get flatteners (K ty)) as [[|]|] eqn:Hty.
      - by apply list_elem_of_singleton in Hin.
      - by destruct ty.
      - destruct (walk_mro_atoms name (VObj ty bases p) bases) as [H|H];
          rewrite H in Hin; [by apply elem_of_nil in Hin|].
        by apply list_elem_of_singleton in Hin. }
    injection Hone as -> ->. split; [by rewrite FlattenFacts.isinstance_sequence|].
    exists "". by rewrite append_nil_r.
  - rewrite FlattenFacts.flatten_obj_sequence, FlattenFacts.flatten_lst_leaves.
    intros ([q w] & [= -> ->] & Hq)%list_elem_of_fmap. split.
    + exact (leaves_not_sequence _ q w Hq).
    + by eexists.
Qed.

Lemma flatten_obj_leaves_witness :
  isinstance (py_int 2) [Q q_tuple; Q q_list; Q q_array] = false ∧
  ∃ suffix, "x[1][0]" = "x" +:+ suffix.
Proof.
  apply (flatten_obj_leaves "x" (py_list [py_int 1; py_tuple [py_int 2; py_str "a"]])
           "x[1][0]" (py_int 2)).
  apply list_elem_of_further, list_elem_of_here.
Defined.

End FlattenMore.

(** ** The steps of a worker, and a sequential run *)

Module SequentialFacts.
Import Driver Sequential.

Section driver.
Context {world : Type}.
Variable model_set : server → string → value → value → world → world * option string.
Variable model_get : server → string → value → world → world * (value + string).
Variable model_run : world → world * option string.
Variable get_pathname : string.
Variable raise_exception_text : string → string.

#[local] Abbreviation driver := (@driver world).
#[local] Abbreviation _run_case := (_run_case model_set model_run raise_exception_text).
#[local] Abbreviation _server_ready :=
  (_server_ready model_set model_get model_run get_pathname raise_exception_text).
#[local] Abbreviation setup := (setup model_set raise_exception_text).
#[local] Abbreviation get_outputs_loop := (get_outputs_loop model_get get_pathname).
#[local] Abbreviation while_server_ready :=
  (while_server_ready model_set model_get model_run get_pathname raise_exception_text).
#[local] Abbreviation _start :=
  (_start model_set model_get model_run get_pathname raise_exception_text).

Ltac unfold_M :=
  unfold assign_case, assign_state, try_except_ServerError;
  unfold mbind, M_bind, mret, M_ret, gets, modify, raise, getitem;
  cbv beta iota zeta.

(** *** Steps that run no case *)

Lemma idle_step (name : server) (d : driver) (st : string) :
  _server_states d !! name = Some st →
  st = _EMPTY ∨ st = _ERROR →
  (∀ s, name = Some s → is_Some (_queues d !! name)) →
  ∃ d', _server_ready name d = (Ok true, d') ∧
        _server_states d' = <[name := _READY]> (_server_states d) ∧
        _server_cases d'
        = (if decide (st = _ERROR) then <[name := None]> (_server_cases d)
           else _server_cases d) ∧
        _queues d'
        = match name with
          | Some _ => <[name := default [] (_queues d !! name)
                                  ++ [_remote_load_model name]]> (_queues d)
          | None => _queues d
          end ∧
        _todo d' = _todo d ∧ _rerun d' = _rerun d ∧ _iter d' = _iter d ∧
        recorder d' = recorder d ∧ _exceptions d' = _exceptions d ∧
        models d' = models d ∧ same_settings d' d.
Proof.
  intros Hst Hidle Hq. unfold Driver._server_ready, _load_model. unfold_M.
  rewrite Hst. cbv beta iota.
  destruct Hidle as [-> | ->].
  - rewrite (decide_True (P := _EMPTY = _EMPTY)) by done.
    rewrite (decide_False (P := _EMPTY = _ERROR)) by done.
    destruct name as [s|]; unfold_M.
    + destruct (Hq s eq_refl) as [q Hqs]. rewrite Hqs. cbn.
      eexists. split; [reflexivity|]. by cbn.
    + eexists. split; [reflexivity|]. by cbn.
  - rewrite (decide_False (P := _ERROR = _EMPTY)) by done.
    rewrite (decide_False (P := _ERROR = _READY)) by done.
    rewrite (decide_False (P := _ERROR = _COMPLETE)) by done.
    rewrite !(decide_True (P := _ERROR = _ERROR)) by done.
    destruct name as [s|]; unfold_M.
    + destruct (Hq s eq_refl) as [q Hqs]. cbn [_queues set_server_cases].
      rewrite Hqs. cbn.
      eexists. split; [reflexivity|]. by cbn.
    + eexists. split; [reflexivity|]. by cbn.
Qed.

Lemma odd_step (name : server) (d : driver) :
  (_server_states d !! name = None →
   ∃ text, _server_ready name d = (Raise (KeyError text), d)) ∧
  (∀ st, _server_states d !! name = Some st →
         st ∉ [_EMPTY; _READY; _COMPLETE; _ERROR] →
         _server_ready name d = (Ok false, d)).
Proof.
  split.
  - intros Hst. unfold Driver._server_ready. unfold_M. rewrite Hst. by eexists.
  - intros st Hst Hodd. unfold Driver._server_ready. unfold_M. rewrite Hst.
    cbv beta iota.
    rewrite !not_elem_of_cons in Hodd. destruct Hodd as (H1 & H2 & H3 & H4 & _).
    rewrite (decide_False (P := st = _EMPTY)) by done.
    rewrite (decide_False (P := st = _READY)) by done.
    rewrite (decide_False (P := st = _COMPLETE)) by done.
    by rewrite (decide_False (P := st = _ERROR)) by done.
Qed.

(** *** Steps that run a case *)

Lemma ready_step (name : server) (d : driver) :
  _server_states d !! name = Some _READY →
  _server_ready name d
  = match _todo d, _rerun d, _iter d with
    | c :: todo', _, _ =>
        in_use_after (_stop d) (_run_case c name false (set_todo todo' d))
    | [], c :: rerun', _ =>
        in_use_after (_stop d) (_run_case c name true (set_rerun rerun' d))
    | [], [], c :: it' =>
        in_use_after (_stop d) (_run_case c name false (set_iter it' d))
    | [], [], [] => (Ok false, d)
    end.
Proof.
  intros Hst.
  assert (Hstep : ∀ c rerun d1,
            (let (r, d') := _run_case c name rerun d1 in
             match r with
             | Ok _ => (Ok (if _stop d then false else true), d')
             | Raise e => (Raise e, d')
             end) = in_use_after (_stop d) (_run_case c name rerun d1)).
  { intros c rerun d1. unfold in_use_after.
    destruct (_run_case c name rerun d1) as [[|] ?]; [|done]. by destruct (_stop d). }
  unfold Driver._server_ready. unfold_M. rewrite Hst. cbv beta iota.
  rewrite (decide_False (P := _READY = _EMPTY)) by done.
  rewrite (decide_True (P := _READY = _READY)) by done.
  destruct (_todo d) as [|c todo']; [destruct (_rerun d) as [|c rerun'];
    [destruct (_iter d) as [|c it']|]|]; try done; apply Hstep.
Qed.

(** [_run_case] on the local worker. *)
Lemma run_case_local (c : case.t) (rerun : bool) (d : driver) (r : Z) :
  let c0 := prepared (max_retries d) rerun c in
  case.retries c0 = Some r →
  ∃ d', _run_case c None rerun d = (Ok tt, d') ∧
        _iter d' = _iter d ∧ _todo d' = _todo d ∧ same_settings d' d ∧
        match (setup None (case.inputs c) (models d)).2 with
        | None =>
            _server_states d' !! None = Some _COMPLETE ∧
            _server_cases d' !! None = Some (Some c0) ∧
            is_Some (_exceptions d' !! None) ∧
            _rerun d' = _rerun d ∧ recorder d' = recorder d ∧
            models d' = (model_run (setup None (case.inputs c) (models d)).1).1
        | Some text =>
            _server_states d' !! None = Some _ERROR ∧
            if py_lt (case.retries c0) (case.max_retries c0)
            then _rerun d' = _rerun d ++ [case.set_retries (Some (r + 1)%Z) c0] ∧
                 recorder d' = recorder d
            else recorder d' = recorder d ++ [case.set_msg (Some text) c0] ∧
                 _rerun d' = _rerun d
        end.
Proof.
  intros c0 Hr. unfold Driver._run_case. unfold_M.
  rewrite DriverFacts.set_inputs_loop_setup.
  rewrite (DriverFacts.prepared_eq (max_retries d) rerun c). fold c0.
  replace (case.inputs c0) with (case.inputs c)
    by (symmetry; apply DriverFacts.prepared_inputs).
  cbn [models set_server_cases].
  destruct (setup None (case.inputs c) (models d)) as [w [text|]]; cbn [fst snd].
  - destruct (py_lt (case.retries c0) (case.max_retries c0)).
    + rewrite Hr. eexists. split; [reflexivity|]. cbn.
      rewrite lookup_insert_eq. by repeat split.
    + eexists. split; [reflexivity|]. cbn.
      rewrite lookup_insert_eq. by repeat split.
  - unfold _model_execute. unfold_M. cbn [models set_exceptions set_models].
    destruct (model_run w) as [w' [text|]]; cbn [fst snd];
      (eexists; split; [reflexivity|]); cbn;
      rewrite !lookup_insert_eq; by repeat split.
Qed.

(** *** Reading the outputs of a case *)

Lemma drop_fmap_cons {A B : Type} (f : A → B) (l : list A) (i : nat) (y : B)
    (ys : list B) :
  y :: ys = f <$> drop i l →
  ∃ x, l !! i = Some x ∧ f x = y ∧ ys = f <$> drop (S i) l.
Proof.
  intros H. destruct (drop i l) as [|x tl] eqn:Hdrop; [done|].
  injection H as -> ->.
  assert (Hx : l !! i = Some x).
  { rewrite <- (Nat.add_0_r i), <- lookup_drop. by rewrite Hdrop. }
  exists x. split; [done|]. split; [done|].
  rewrite (drop_S l x i Hx) in Hdrop. by injection Hdrop as ->.
Qed.

Lemma get_outputs_loop_fields (name : server) (todo : list (string * value * value)) :
  ∀ (i : nat) (c : case.t) (d : driver),
    todo.*1 = (drop i (case.outputs c)).*1 →
    ∃ c' w,
      get_outputs_loop name i todo c d = (Ok c', set_models w d) ∧
      case.inputs c' = case.inputs c ∧ case.retries c' = case.retries c ∧
      case.max_retries c' = case.max_retries c ∧
      (case.outputs c').*1 = (case.outputs c).*1 ∧
      (case.msg c' = case.msg c ∨
       ∃ var index old text,
         (var, index, old) ∈ todo ∧
         case.msg c' = Some (get_pathname +:+ ": " +:+ "Exception getting '"
                             +:+ var +:+ "': " +:+ text)).
Proof.
  induction todo as [|[[var index] old] todo IH]; intros i c d Htodo.
  - exists c, (models d). split; [by destruct d|]. repeat split; try done. by left.
  - cbn [Driver.get_outputs_loop]. unfold_M. unfold _model_get.
    apply (drop_fmap_cons fst) in Htodo as (x & Hx & Hx1 & Htodo).
    destruct (model_get name var index (models d)) as [w [v|text]].
    + set (c1 := case.set_outputs _ c). set (d1 := set_models w d).
      assert (Hnames : (case.outputs c1).*1 = (case.outputs c).*1).
      { subst c1. cbn [case.outputs case.set_outputs].
        rewrite list_fmap_insert. apply list_insert_id.
        rewrite list_lookup_fmap, Hx. cbn. by rewrite Hx1. }
      destruct (IH (S i) c1 d1) as (c' & w' & -> & Hi & Hr & Hm & Ho & Hmsg).
      { subst c1. cbn [case.outputs case.set_outputs].
        rewrite drop_insert_lt by lia. done. }
      exists c', w'. split; [done|]. rewrite Ho, Hnames.
      repeat split; try done.
      destruct Hmsg as [->|(var' & index' & old' & text' & Hin & ->)]; [by left|].
      right. exists var', index', old', text'. split; [|done].
      by apply list_elem_of_further.
    + set (c1 := case.set_msg _ c). set (d1 := set_models w d).
      destruct (IH (S i) c1 d1) as (c' & w' & -> & Hi & Hr & Hm & Ho & Hmsg); [done|].
      exists c', w'. split; [done|]. repeat split; try done. right.
      destruct Hmsg as [->|(var' & index' & old' & text' & Hin & ->)].
      * exists var, index, old, text. split; [apply list_elem_of_here|done].
      * exists var', index', old', text'. split; [|done].
        by apply list_elem_of_further.
Qed.

(** The step of the local worker whose execution is complete. *)
Lemma complete_step_local (d : driver) (c : case.t) (exc : option string) :
  _server_states d !! None = Some _COMPLETE →
  _server_cases d !! None = Some (Some c) →
  _exceptions d !! None = Some exc →
  ∃ c' d', _server_ready None d = (Ok true, d') ∧
           recorder d' = recorder d ++ [c'] ∧ recorded_as c c' ∧
           _server_states d' !! None = Some _READY ∧
           _todo d' = _todo d ∧ _rerun d' = _rerun d ∧ _iter d' = _iter d ∧
           same_settings d' d.
Proof.
  intros Hst Hc Hexc. unfold Driver._server_ready, _model_status, _load_model.
  unfold_M. rewrite Hst. cbv beta iota.
  rewrite (decide_False (P := _COMPLETE = _EMPTY)) by done.
  rewrite (decide_False (P := _COMPLETE = _READY)) by done.
  rewrite (decide_True (P := _COMPLETE = _COMPLETE)) by done.
  rewrite Hc. cbn [_exceptions set_server_cases]. rewrite Hexc. cbv beta iota.
  set (d0 := set_server_cases (<[None:=None]> (_server_cases d)) d).
  destruct exc as [text|].
  - exists (case.set_msg (Some text) c).
    destruct (str_truthy (case.msg (case.set_msg (Some text) c)));
      cbn [negb]; cbv beta iota.
    + eexists. split; [reflexivity|]. cbn. by rewrite lookup_insert_eq.
    + cbn [reload_model set_recorder]. subst d0. cbn [reload_model set_server_cases].
      destruct (reload_model d) eqn:Hreload; cbv beta iota;
        (eexists; split; [reflexivity|]); cbn; by rewrite lookup_insert_eq.
  - destruct (get_outputs_loop_fields None (case.outputs c) 0 c d0 eq_refl)
      as (c' & w & -> & Hi & Hr & Hm & Ho & Hmsg).
    exists c'. cbv beta iota.
    destruct (str_truthy (case.msg c')); cbn [negb]; cbv beta iota.
    + eexists. split; [reflexivity|]. cbn. by rewrite lookup_insert_eq.
    + cbn [reload_model set_recorder set_models]. subst d0.
      cbn [reload_model set_server_cases].
      destruct (reload_model d) eqn:Hreload; cbv beta iota;
        (eexists; split; [reflexivity|]); cbn; by rewrite lookup_insert_eq.
Qed.

(** *** The loop of a sequential run *)

#[local] Abbreviation turns :=
  (turns model_set model_get model_run get_pathname raise_exception_text).

Lemma turns_one (d d' : driver) :
  _server_ready None d = (Ok true, d') → turns 1 d d'.
Proof.
  intros Hstep n. cbn [Nat.add Sequential.while_server_ready].
  unfold mbind, M_bind. by rewrite Hstep.
Qed.

Lemma turns_trans (j k : nat) (d d' d'' : driver) :
  turns j d d' → turns k d' d'' → turns (j + k) d d''.
Proof. intros H1 H2 n. by rewrite <- Nat.add_assoc, H1, H2. Qed.

Lemma loop_end (d d' : driver) (n : nat) :
  _server_ready None d = (Ok false, d') →
  while_server_ready (S n) None d = (Ok (Some tt), d').
Proof.
  intros Hstep. cbn [Sequential.while_server_ready].
  unfold mbind, M_bind. by rewrite Hstep.
Qed.

Lemma recorded_as_prepared (m : Z) (rerun : bool) (c c' : case.t) :
  recorded_as (prepared m rerun c) c' → recorded_as c c'.
Proof.
  unfold recorded_as, prepared. destruct rerun; [done|]. by destruct (int_truthy _).
Qed.

(** The turns that bring a case from its attempt to the recorder. *)
Lemma case_turns (budget : nat) :
  ∀ (c : case.t) (rerun : bool) (d : driver) (it : list case.t) (r : Z),
    let c0 := prepared (max_retries d) rerun c in
    _todo d = [] → _rerun d = [] → _iter d = it → _stop d = false →
    case.retries c0 = Some r →
    match case.max_retries c0 with
    | Some m => Z.to_nat (m - r) ≤ budget
    | None => True
    end →
    ∃ d1 k d' c',
      _run_case c None rerun d = (Ok tt, d1) ∧ turns k d1 d' ∧
      ready_for it d' ∧ recorder d' = recorder d ++ [c'] ∧ recorded_as c c' ∧
      max_retries d' = max_retries d.
Proof.
  induction budget as [|budget IH]; intros c rerun d it r c0 Htodo Hrerun Hiter Hstop
    Hr Hbudget;
    destruct (run_case_local c rerun d r Hr)
      as (d1 & Hrun & Hit1 & Htd1 & (Hmax1 & Hrel1 & Hstop1) & Hcase);
    fold c0 in Hcase;
    destruct (setup None (case.inputs c) (models d)) as [w [text|]];
    cbn [fst snd] in Hcase.
  (* no retry left: the failing case is recorded *)
  - destruct Hcase as [Hst1 Hcase].
    assert (Hlt : py_lt (case.retries c0) (case.max_retries c0) = false).
    { rewrite Hr. destruct (case.max_retries c0) as [m|]; [|done]. cbn.
      apply bool_decide_eq_false. lia. }
    rewrite Hlt in Hcase. destruct Hcase as [Hrec1 Hrr1].
    destruct (idle_step None d1 _ERROR Hst1) as (d2 & Hstep & Hst2 & _ & _ & Htd2
      & Hrr2 & Hit2 & Hrec2 & _ & _ & Hmax2 & _ & Hstop2); [by right|done|].
    exists d1, 1, d2, (case.set_msg (Some text) c0). split; [done|].
    split; [by apply turns_one|]. split.
    { unfold ready_for. rewrite Hst2, lookup_insert_eq. repeat split; congruence. }
    split; [congruence|]. split; [|congruence].
    by apply (recorded_as_prepared (max_retries d) rerun).
  - destruct Hcase as (Hst1 & Hc1 & [exc Hexc1] & Hrr1 & Hrec1 & _).
    destruct (complete_step_local d1 c0 exc Hst1 Hc1 Hexc1)
      as (c' & d2 & Hstep & Hrec2 & Has & Hst2 & Htd2 & Hrr2 & Hit2 & Hmax2 & _ & Hstop2).
    exists d1, 1, d2, c'. split; [done|]. split; [by apply turns_one|]. split.
    { unfold ready_for. repeat split; congruence. }
    split; [congruence|]. split; [|congruence].
    by apply (recorded_as_prepared (max_retries d) rerun).
  (* a failing case with a retry left *)
  - destruct Hcase as [Hst1 Hcase].
    destruct (py_lt (case.retries c0) (case.max_retries c0)) eqn:Hlt.
    + destruct Hcase as [Hrr1 Hrec1].
      set (c1 := case.set_retries (Some (r + 1)%Z) c0) in *.
      destruct (idle_step None d1 _ERROR Hst1) as (d2 & Hstep & Hst2 & _ & _ & Htd2
        & Hrr2 & Hit2 & Hrec2 & _ & _ & Hmax2 & _ & Hstop2); [by right|done|].
      assert (Hst2' : _server_states d2 !! None = Some _READY)
        by (by rewrite Hst2, lookup_insert_eq).
      pose proof (ready_step None d2 Hst2') as Hready.
      rewrite Htd2, Htd1, Htodo, Hrr2, Hrr1, Hrerun in Hready. cbn [app] in Hready.
      destruct (IH c1 true (set_rerun [] d2) it (r + 1)%Z)
        as (d3 & k & d' & c' & Hrun3 & Hturns & Hready' & Hrec' & Has & Hmax');
        [cbn; congruence..|done| |].
      { cbn [prepared case.max_retries case.set_msg]. subst c1.
        cbn [case.max_retries case.set_retries].
        rewrite Hr in Hlt. destruct (case.max_retries c0) as [m|]; [|done].
        cbn in Hlt. apply bool_decide_eq_true in Hlt. lia. }
      rewrite Hrun3 in Hready. unfold in_use_after in Hready. cbn [fst snd] in Hready.
      rewrite Hstop2, Hstop1, Hstop in Hready. cbn [negb] in Hready.
      exists d1, (1 + (1 + k)), d', c'. split; [done|]. split.
      { apply turns_trans with d2; [by apply turns_one|].
        apply turns_trans with d3; [by apply turns_one|done]. }
      split; [done|]. split.
      { rewrite Hrec'. cbn [recorder set_recorder set_rerun]. congruence. }
      split.
      { apply (recorded_as_prepared (max_retries d) rerun). fold c0.
        destruct Has as [Hi Ho]. by split. }
      rewrite Hmax'. cbn. congruence.
    + destruct Hcase as [Hrec1 Hrr1].
      destruct (idle_step None d1 _ERROR Hst1) as (d2 & Hstep & Hst2 & _ & _ & Htd2
        & Hrr2 & Hit2 & Hrec2 & _ & _ & Hmax2 & _ & Hstop2); [by right|done|].
      exists d1, 1, d2, (case.set_msg (Some text) c0). split; [done|].
      split; [by apply turns_one|]. split.
      { unfold ready_for. rewrite Hst2, lookup_insert_eq. repeat split; congruence. }
      split; [congruence|]. split; [|congruence].
      by apply (recorded_as_prepared (max_retries d) rerun).
  - destruct Hcase as (Hst1 & Hc1 & [exc Hexc1] & Hrr1 & Hrec1 & _).
    destruct (complete_step_local d1 c0 exc Hst1 Hc1 Hexc1)
      as (c' & d2 & Hstep & Hrec2 & Has & Hst2 & Htd2 & Hrr2 & Hit2 & Hmax2 & _ & Hstop2).
    exists d1, 1, d2, c'. split; [done|]. split; [by apply turns_one|]. split.
    { unfold ready_for. repeat split; congruence. }
    split; [congruence|]. split; [|congruence].
    by apply (recorded_as_prepared (max_retries d) rerun).
Qed.

Lemma iter_turns (it : list case.t) :
  ∀ d : driver,
    ready_for it d →
    ∃ k d' done,
      turns k d d' ∧ ready_for [] d' ∧ recorder d' = recorder d ++ done ∧
      Forall2 recorded_as it done.
Proof.
  induction it as [|c it IH]; intros d Hready.
  - exists 0, d, []. split; [by intros n|]. split; [done|].
    split; [by rewrite app_nil_r|constructor].
  - destruct Hready as (Hst & Htodo & Hrerun & Hiter & Hstop).
    pose proof (ready_step None d Hst) as Hstep.
    rewrite Htodo, Hrerun, Hiter, Hstop in Hstep.
    set (c0 := prepared (max_retries (set_iter it d)) false c).
    destruct (case_turns (match case.max_retries c0 with
                          | Some m => Z.to_nat (m - 0)
                          | None => 0
                          end) c false (set_iter it d) it 0%Z)
      as (d1 & k & d2 & c' & Hrun & Hturns & Hready2 & Hrec2 & Has & _); try done.
    { fold c0. by destruct (case.max_retries c0). }
    rewrite Hrun in Hstep. unfold in_use_after in Hstep. cbn [fst snd negb] in Hstep.
    destruct (IH d2 Hready2) as (k' & d' & done & Hturns' & Hready' & Hrec' & Hall).
    exists (1 + (k + k')), d', (c' :: done). split.
    { apply turns_trans with d1; [by apply turns_one|].
      by apply turns_trans with d2. }
    split; [done|]. split; [|by constructor].
    rewrite Hrec', Hrec2. cbn [recorder set_iter]. by rewrite <- app_assoc.
Qed.


(** X16: one step of a worker that is [_EMPTY] or in [_ERROR] loads the
    model and makes it [_READY], and the step answers [True]; a worker
    in [_ERROR] gives up the case it held; a remote worker gets one load
    request on its queue; the cases waiting, the recorder and the models
    are left as they are. *)
Theorem idle_worker_becomes_ready (name : server) (d : driver) (st : string) :
  _server_states d !! name = Some st →
  st = _EMPTY ∨ st = _ERROR →
  (∀ s, name = Some s → is_Some (_queues d !! name)) →
  ∃ d', _server_ready name d = (Ok true, d') ∧
        _server_states d' = <[name := _READY]> (_server_states d) ∧
        _server_cases d'
        = (if decide (st = _ERROR) then <[name := None]> (_server_cases d)
           else _server_cases d) ∧
        _queues d'
        = match name with
          | Some _ => <[name := default [] (_queues d !! name)
                                  ++ [_remote_load_model name]]> (_queues d)
          | None => _queues d
          end ∧
        _todo d' = _todo d ∧ _rerun d' = _rerun d ∧ _iter d' = _iter d ∧
        recorder d' = recorder d ∧ _exceptions d' = _exceptions d ∧
        models d' = models d.
Proof.
  intros Hst Hidle Hq.
  destruct (idle_step name d st Hst Hidle Hq)
    as (d' & H1 & H2 & H3 & H4 & H5 & H6 & H7 & H8 & H9 & H10 & _).
  by exists d'.
Qed.

(** X17: for a worker the driver has no state for, the step raises
    [KeyError]; for a worker in a state other than the four the driver
    knows, it answers [False]; in both cases the driver is left as it
    was. *)
Theorem unexpected_state (name : server) (d : driver) :
  (_server_states d !! name = None →
   ∃ text, _server_ready name d = (Raise (KeyError text), d)) ∧
  (∀ st, _server_states d !! name = Some st →
         st ∉ [_EMPTY; _READY; _COMPLETE; _ERROR] →
         _server_ready name d = (Ok false, d)).
Proof. apply odd_step. Qed.


(** X19: a stop request does not keep a ready worker from starting the
    next case.  In a sequential run the next case of the iterator is
    still set up and run on the model, the loop then ends, and that case
    is never recorded: the worker is left holding it, its execution
    complete. *)
Theorem stop_drops_started_case (c : case.t) (it : list case.t) (d : driver)
    (w : world) (n : nat) :
  _stop d = true →
  _server_states d !! None = Some _READY →
  _todo d = [] → _rerun d = [] → _iter d = c :: it →
  setup None (case.inputs c) (models d) = (w, None) →
  ∃ d', while_server_ready (S n) None d = (Ok (Some tt), d') ∧
        models d' = (model_run w).1 ∧
        recorder d' = recorder d ∧ _rerun d' = [] ∧ _todo d' = [] ∧ _iter d' = it ∧
        _server_states d' !! None = Some _COMPLETE ∧
        _server_cases d' !! None = Some (Some (prepared (max_retries d) false c)).
Proof.
  intros Hstop Hst Htodo Hrerun Hiter Hsetup.
  pose proof (ready_step None d Hst) as Hstep.
  rewrite Htodo, Hrerun, Hiter, Hstop in Hstep.
  destruct (run_case_local c false (set_iter it d) 0) as
    (d1 & Hrun & Hit1 & Htd1 & _ & Hcase).
  { done. }
  cbn [models set_iter] in Hcase. rewrite Hsetup in Hcase. cbn [fst snd] in Hcase.
  destruct Hcase as (Hst1 & Hc1 & _ & Hrr1 & Hrec1 & Hmodels).
  rewrite Hrun in Hstep. unfold in_use_after in Hstep. cbn [fst snd negb] in Hstep.
  exists d1. split; [by apply loop_end|].
  cbn [_iter _todo _rerun recorder max_retries set_iter] in *.
  repeat split; congruence.
Qed.

(** X20: a sequential run with no stop requested comes to an end and
    records every case of the iterator exactly once, in the order of the
    iterator, however often setting up a case fails and is retried; each
    recorded case has the inputs and the output names of the case it
    was made from.  With an empty iterator no worker is set up and the
    model is not touched. *)
Theorem start_records_every_case (iterator : list case.t) (d : driver) :
  _stop d = false →
  ∃ N, ∀ fuel, N ≤ fuel →
    ∃ d' done,
      _start fuel iterator d = (Ok (Some tt), d') ∧
      recorder d' = recorder d ++ done ∧
      Forall2 recorded_as iterator done ∧
      _todo d' = [] ∧ _rerun d' = [] ∧ _iter d' = [] ∧
      (iterator = [] → _server_states d' = ∅ ∧ models d' = models d).
Proof.
  intros Hstop. destruct iterator as [|c it].
  - exists 0. intros fuel _. unfold Sequential._start. unfold_M.
    do 2 eexists. split; [reflexivity|]. cbn.
    split; [symmetry; apply app_nil_r|]. split; [constructor|]. done.
  - unfold Sequential._start. unfold_M. cbn [_iter set_iter].
    match goal with
    | |- context [Sequential.while_server_ready _ _ _ _ _ _ None ?x] => set (d0 := x)
    end.
    assert (Hd0 : _server_states d0 !! None = Some _EMPTY ∧ _todo d0 = [c] ∧
                  _rerun d0 = [] ∧ _iter d0 = it ∧ recorder d0 = recorder d ∧
                  _stop d0 = false)
      by (subst d0; cbn; by rewrite lookup_insert_eq).
    clearbody d0. destruct Hd0 as (Hst0 & Htd0 & Hrr0 & Hit0 & Hrec0 & Hstop0).
    destruct (idle_step None d0 _EMPTY) as (d1 & Hstep1 & Hst1 & _ & _ & Htd1 & Hrr1
      & Hit1 & Hrec1 & _ & _ & Hmax1 & _ & Hstop1); [done|by left|done|].
    assert (Hst1' : _server_states d1 !! None = Some _READY)
      by (by rewrite Hst1, lookup_insert_eq).
    pose proof (ready_step None d1 Hst1') as Hstep2.
    rewrite Htd1, Htd0, Hstop1, Hstop0 in Hstep2.
    set (c0 := prepared (max_retries (set_todo [] d1)) false c).
    destruct (case_turns (match case.max_retries c0 with
                          | Some m => Z.to_nat (m - 0)
                          | None => 0
                          end) c false (set_todo [] d1) it 0%Z)
      as (d2 & k & d3 & c' & Hrun & Hturns & Hready3 & Hrec3 & Has & _);
      try done; try (cbn; congruence).
    { fold c0. by destruct (case.max_retries c0). }
    rewrite Hrun in Hstep2. unfold in_use_after in Hstep2. cbn [fst snd negb] in Hstep2.
    destruct (iter_turns it d3 Hready3) as (k' & d4 & done & Hturns' & Hready4 & Hrec4
      & Hall).
    destruct Hready4 as (Hst4 & Htd4 & Hrr4 & Hit4 & Hstop4).
    pose proof (ready_step None d4 Hst4) as Hstep4.
    rewrite Htd4, Hrr4, Hit4 in Hstep4.
    exists (1 + (1 + (k + k')) + 1). intros fuel Hfuel.
    exists d4, (c' :: done). split.
    { replace fuel with (1 + (1 + (k + k')) + S (fuel - (1 + (1 + (k + k')) + 1)))
        by lia.
      rewrite (turns_trans 1 (1 + (k + k')) _ d1 d4).
      - by apply loop_end.
      - by apply turns_one.
      - apply turns_trans with d2; [by apply turns_one|].
        by apply turns_trans with d3. }
    split.
    { rewrite Hrec4, Hrec3. cbn [recorder set_todo]. rewrite Hrec1, Hrec0.
      by rewrite <- app_assoc. }
    split; [by constructor|]. done.
Qed.

End driver.

(** *** The theorems at work on the example drivers *)

#[local] Abbreviation ex_server_ready :=
  (_server_ready ex_model_set ex_model_get ex_model_run "driver" ex_raise_text).

Lemma idle_worker_becomes_ready_witness :
  ∃ d', ex_server_ready None (ex_driver _ERROR (Some ex_case_good) None [] [] [])
        = (Ok true, d') ∧
        _server_states d' !! None = Some _READY ∧
        _server_cases d' !! None = Some None ∧
        recorder d' = [].
Proof.
  destruct (idle_worker_becomes_ready ex_model_set ex_model_get ex_model_run "driver"
              ex_raise_text None
              (ex_driver _ERROR (Some ex_case_good) None [] [] []) _ERROR)
    as (d' & Hrun & Hst & Hc & _ & _ & _ & _ & Hrec & _); [reflexivity|by right|done|].
  exists d'. split; [exact Hrun|]. rewrite Hst, Hc, Hrec. by repeat split.
Defined.

Lemma unexpected_state_witness :
  ex_server_ready None (ex_driver "lost" None None [ex_case_good] [] [])
  = (Ok false, ex_driver "lost" None None [ex_case_good] [] []).
Proof.
  apply (proj2 (unexpected_state ex_model_set ex_model_get ex_model_run "driver"
                  ex_raise_text None
                  (ex_driver "lost" None None [ex_case_good] [] [])) "lost").
  - reflexivity.
  - intros H. repeat (apply elem_of_cons in H as [H|H]; [discriminate H|]).
    by apply elem_of_nil in H.
Defined.


Lemma stop_drops_started_case_witness :
  ∃ d', while_server_ready ex_model_set ex_model_get ex_model_run "driver"
          ex_raise_text 1 None ex_stopped_driver = (Ok (Some tt), d') ∧
        recorder d' = [] ∧ _iter d' = [] ∧
        _server_states d' !! None = Some _COMPLETE.
Proof.
  destruct (stop_drops_started_case ex_model_set ex_model_get ex_model_run "driver"
              ex_raise_text ex_case_good [] ex_stopped_driver tt 0)
    as (d' & Hrun & _ & Hrec & _ & _ & Hit & Hst & _); try reflexivity.
  by exists d'.
Defined.

Lemma start_records_every_case_witness :
  ∃ N, ∀ fuel, N ≤ fuel →
    ∃ d' done,
      _start ex_model_set ex_model_get ex_model_run "driver" ex_raise_text fuel
        [ex_case_bad; ex_case_good] (ex_driver _READY None None [] [] [])
      = (Ok (Some tt), d') ∧
      recorder d' = done ∧ Forall2 recorded_as [ex_case_bad; ex_case_good] done.
Proof.
  destruct (start_records_every_case ex_model_set ex_model_get ex_model_run "driver"
              ex_raise_text [ex_case_bad; ex_case_good]
              (ex_driver _READY None None [] [] []) eq_refl) as [N HN].
  exists N. intros fuel Hfuel.
  destruct (HN fuel Hfuel) as (d' & done & Hrun & Hrec & Hall & _).
  by exists d', done.
Defined.

End SequentialFacts.
